(** * Weave: a dependency-injection container (youjianglong/weave)

    A shallow embedding of [weave.go] and [map.go]: the build engine
    ([assign], [Provide], [Build], [build], [GetService], [Compact],
    [Extract]) and the dependency-graph analyser ([GetDependencyGraph],
    [detectCircularDependency], [findAllCyclesFromNode], [normalizeCycle],
    [deduplicateCycles], [GetAllCircularDependencies]).

    Modelling conventions.
    - A Go [map[string]X] is a [gmap string X].  Go iterates a map in an
      unspecified order, so every function that ranges over a map takes the
      iteration order as an explicit argument [order : list string]; the
      theorems quantify over it.
    - Pointers are indices into a store: [objs] holds the [entry] structs
      ([*entry] is an index into it), [heap] holds the structs the output
      slots point to.  Nothing is ever freed, so allocation appends.
    - User code (factories and ready callbacks) is a [prog]: a tree of the
      calls it makes into the container, ending in its return value or in a
      panic.
    - Go's recursion [build -> builder -> getServiceFunc -> build] is
      bounded by a [fuel] counting the nesting depth of [build]; so are the
      two depth-first searches.  More fuel never changes a result
      ([Build_le], [detect_le]).
    - [log] is not a field of the Go struct: it records the calls into user
      code, so that the theorems can speak of what factories were run and
      what they returned.

    Left out: the two mutexes (a build is single-threaded, and user code
    that asked for a lock [Build] holds would block for ever); the dynamic
    types behind [any] (through [Provide] the output slot and the struct the
    factory returns have the same type, and the type assertion of
    [MustMake] is taken to succeed); writes of user code through the
    pointers it is given (it reads them, with [Deref]). *)

From stdpp Require Import gmap strings list fin_maps sorting.

(** ** Values, errors, panics *)

(** Address of an output slot (the [new(R)] of [Provide]). *)
Abbreviation loc := nat.
(** Address of an [entry] struct (the [&entry{...}] of [assign]). *)
Abbreviation eptr := nat.

(** The fields of a service struct: a scalar, or a (possibly nil) reference
    to another service's output slot. *)
Inductive field :=
| FStr (s : string)
| FRef (p : option loc).

(** The contents of a service struct [R]. *)
Definition value := list field.

(** The two [fmt.Errorf] of the package. *)
Inductive error :=
| NotFound (name : string)      (* "service [%s] not found" *)
| BuildFailed (name : string).  (* "service [%s] build failed" *)

Definition Error (e : error) : string :=
  match e with
  | NotFound name => "service [" +:+ name +:+ "] not found"
  | BuildFailed name => "service [" +:+ name +:+ "] build failed"
  end.

Inductive panic :=
| PanicError (e : error)   (* panic(err) *)
| PanicString (msg : string)  (* panic("...") *)
| PanicReflect             (* reflect: call of reflect.Value.Set on zero Value *)
| PanicNil.                (* nil pointer dereference / call of a nil func *)

(** What [entry.builder] returns, an [any]: the nil interface, an interface
    holding a nil [*R], or an interface holding a pointer to a struct with
    the given contents. *)
Inductive product :=
| Nil
| NilPtr
| Ptr (v : value).

(** The [(any, error)] returned by [GetService]: the entry's [instance]
    (a pointer to its output slot) or an error. *)
Definition answer : Type := loc + error.

(** ** User code *)

(** A factory or a ready callback, as the container sees it. *)
Inductive prog (A : Type) : Type :=
| Ret (a : A)                                  (* return a *)
| Call (name : string) (k : answer → prog A)   (* obj, err := di.GetService(name); ... *)
| Deref (p : loc) (k : value → prog A)         (* v := *p; ... *)
| Throw (p : panic).                           (* panic(p) *)
Arguments Ret {A} a.
Arguments Call {A} name k.
Arguments Deref {A} p k.
Arguments Throw {A} p.

(** [MustMake[T, R](di, name)]: panic on error, else the pointer. *)
Definition MustMake {A} (name : string) (k : loc → prog A) : prog A :=
  Call name (λ a, match a with
                  | inl obj => k obj
                  | inr err => Throw (PanicError err)
                  end).

(** [TryMake[T, R](di, name)]: [(nil, false)] on error. *)
Definition TryMake {A} (name : string) (k : option loc → prog A) : prog A :=
  Call name (λ a, match a with
                  | inl obj => k (Some obj)
                  | inr _ => k None
                  end).

(** Calls into user code, in the order they happen. *)
Inductive event :=
| EvCall (name : string)                 (* entry.builder(s.ctx) is entered *)
| EvReturn (name : string) (r : product) (* ... and returns r *)
| EvReady (i : nat).                     (* the i-th ready callback is entered *)

(** The closures [getServiceFunc] can hold: the one [New] installs, and the
    one [build] installs, which captures the [entry] being built. *)
Inductive resolver :=
| Passive
| Recording (owner : eptr).

(** Outcome of running Go code from a state: it returns, it panics, or the
    model's fuel is exhausted. *)
Inductive res (S A : Type) : Type :=
| Done (a : A) (s : S)
| Panicked (p : panic) (s : S)
| Fuel.
Arguments Done {S A} a s.
Arguments Panicked {S A} p s.
Arguments Fuel {S A}.

Definition res_bind {S A B} (r : res S A) (k : A → S → res S B) : res S B :=
  match r with
  | Done a s => k a s
  | Panicked p s => Panicked p s
  | Fuel => Fuel
  end.

Notation "'let*' ( a , s ) := r 'in' k" := (res_bind r (λ a s, k))
  (at level 10, a name, s name, r at level 100, k at level 200,
   format "'let*'  ( a ,  s )  :=  r  'in'  '/' k").

Section Weave.
Context {T : Type}.

(** ** The container *)

Record entry := Entry {
  instance : loc;                              (* instance any: the output slot *)
  builder : option (option T → prog product);  (* nil after Compact *)
  dependsOn : list string;
  built : bool;
}.

Record Weave := MkWeave {
  ctx : option T;                 (* ctx *T *)
  entries : gmap string eptr;     (* entries *Map[string, *entry[*T]] *)
  ready : list (prog unit);
  isBuilt : bool;                 (* the field [built] of Weave *)
  getServiceFunc : resolver;
  (* the store *)
  objs : list entry;
  heap : list value;
  (* calls into user code so far *)
  log : list event;
}.

Definition with_ctx (c : option T) (s : Weave) : Weave :=
  MkWeave c (entries s) (ready s) (isBuilt s) (getServiceFunc s) (objs s) (heap s) (log s).
Definition with_entries (m : gmap string eptr) (s : Weave) : Weave :=
  MkWeave (ctx s) m (ready s) (isBuilt s) (getServiceFunc s) (objs s) (heap s) (log s).
Definition with_ready (r : list (prog unit)) (s : Weave) : Weave :=
  MkWeave (ctx s) (entries s) r (isBuilt s) (getServiceFunc s) (objs s) (heap s) (log s).
Definition with_isBuilt (b : bool) (s : Weave) : Weave :=
  MkWeave (ctx s) (entries s) (ready s) b (getServiceFunc s) (objs s) (heap s) (log s).
Definition with_getServiceFunc (r : resolver) (s : Weave) : Weave :=
  MkWeave (ctx s) (entries s) (ready s) (isBuilt s) r (objs s) (heap s) (log s).
Definition with_objs (o : list entry) (s : Weave) : Weave :=
  MkWeave (ctx s) (entries s) (ready s) (isBuilt s) (getServiceFunc s) o (heap s) (log s).
Definition with_heap (h : list value) (s : Weave) : Weave :=
  MkWeave (ctx s) (entries s) (ready s) (isBuilt s) (getServiceFunc s) (objs s) h (log s).
Definition emit (e : event) (s : Weave) : Weave :=
  MkWeave (ctx s) (entries s) (ready s) (isBuilt s) (getServiceFunc s) (objs s) (heap s)
          (log s ++ [e]).

(** Field updates through an [*entry]. *)
Definition set_built (b : bool) (e : entry) : entry :=
  Entry (instance e) (builder e) (dependsOn e) b.
Definition add_dependsOn (name : string) (e : entry) : entry :=
  Entry (instance e) (builder e) (dependsOn e ++ [name]) (built e).
Definition compact_entry (e : entry) : entry :=
  Entry (instance e) None [] (built e).

Definition update_entry (p : eptr) (f : entry → entry) (s : Weave) : Weave :=
  with_objs (alter f p (objs s)) s.

(** [New[T]()]. *)
Definition New : Weave :=
  MkWeave None ∅ [] false Passive [] [] [].

(** [SetCtx(ctx)]. *)
Definition SetCtx (c : option T) (s : Weave) : Weave := with_ctx c s.

(** [Ready(fn)]. *)
Definition Ready (fn : prog unit) (s : Weave) : Weave :=
  with_ready (ready s ++ [fn]) s.

(** [assign(name, placeholder, builder)]: a fresh [entry] replaces whatever
    the name held, and the container must be built again. *)
Definition assign (name : string) (placeholder : loc)
    (b : option T → prog product) (s : Weave) : Weave :=
  let p := length (objs s) in
  with_isBuilt false
    (with_entries (<[name := p]> (entries s))
       (with_objs (objs s ++ [Entry placeholder (Some b) [] false]) s)).

(** The closure [func(ctx *T) any { return builder(ctx) }] of [Provide]:
    the typed builder returns a [*R], nil or not, and the conversion to
    [any] never gives the nil interface. *)
Fixpoint wrap (t : prog (option value)) : prog product :=
  match t with
  | Ret None => Ret NilPtr
  | Ret (Some v) => Ret (Ptr v)
  | Call name k => Call name (λ a, wrap (k a))
  | Deref p k => Deref p (λ v, wrap (k v))
  | Throw p => Throw p
  end.

(** [Provide[T, R](di, name, builder)]: the placeholder is a fresh
    [new(R)], whose zero value is [zero]. *)
Definition Provide (zero : value) (name : string)
    (b : option T → prog (option value)) (s : Weave) : Weave :=
  let placeholder := length (heap s) in
  assign name placeholder (λ c, wrap (b c)) (with_heap (heap s ++ [zero]) s).

(** ** Resolution and build *)

Section Run.
(** The recursive call to [s.build]. *)
Variable build_rec : string → eptr → Weave → res Weave (option error).

(** [s.getServiceFunc(name)] for each closure it can hold. *)
Definition call_getServiceFunc (name : string) (s : Weave) : res Weave answer :=
  match getServiceFunc s with
  | Passive =>
      match entries s !! name with
      | Some p =>
          match objs s !! p with
          | Some e => Done (inl (instance e)) s
          | None => Panicked PanicNil s
          end
      | None => Done (inr (NotFound name)) s
      end
  | Recording owner =>
      match entries s !! name with
      | None => Done (inr (NotFound name)) s
      | Some p =>
          let s := update_entry owner (add_dependsOn name) s in
          match objs s !! p with
          | None => Panicked PanicNil s
          | Some e =>
              if built e then Done (inl (instance e)) s
              else
                let* (err, s) := build_rec name p s in
                match err with
                | Some err => Done (inr err) s
                | None =>
                    match objs s !! p with
                    | Some e => Done (inl (instance e)) s
                    | None => Panicked PanicNil s
                    end
                end
          end
      end
  end.

(** Running user code. *)
Fixpoint run {A} (t : prog A) (s : Weave) : res Weave A :=
  match t with
  | Ret a => Done a s
  | Call name k =>
      let* (a, s) := call_getServiceFunc name s in
      run (k a) s
  | Deref p k =>
      match heap s !! p with
      | Some v => run (k v) s
      | None => Panicked PanicNil s
      end
  | Throw p => Panicked p s
  end.
End Run.

(** [s.build(name, entry)]. *)
Fixpoint build (fuel : nat) (name : string) (p : eptr) (s : Weave)
    : res Weave (option error) :=
  match fuel with
  | O => Fuel
  | S fuel =>
      match objs s !! p with
      | None => Panicked PanicNil s
      | Some e =>
          if built e then Done None s
          else
            let originalFunc := getServiceFunc s in
            let s := with_getServiceFunc (Recording p) s in
            let s := update_entry p (set_built true) s in
            match builder e with
            | None => Panicked PanicNil s
            | Some b =>
                let* (inst, s) := run (build fuel) (b (ctx s)) (emit (EvCall name) s) in
                let s := emit (EvReturn name inst) s in
                match inst with
                | Nil =>
                    Done (Some (BuildFailed name)) (update_entry p (set_built false) s)
                | NilPtr => Panicked PanicReflect s
                | Ptr v =>
                    match objs s !! p with
                    | None => Panicked PanicNil s
                    | Some e =>
                        Done None
                          (with_getServiceFunc originalFunc
                             (with_heap (<[instance e := v]> (heap s)) s))
                    end
                end
            end
      end
  end.

(** [GetService(name)], called from outside a factory. *)
Definition GetService (fuel : nat) (name : string) (s : Weave) : res Weave answer :=
  call_getServiceFunc (build fuel) name s.

(** The [s.entries.Range] of [Build]: stop at the first error. *)
Fixpoint build_all (fuel : nat) (order : list string) (s : Weave)
    : res Weave (option error) :=
  match order with
  | [] => Done None s
  | name :: order =>
      match entries s !! name with
      | None => build_all fuel order s
      | Some p =>
          let* (err, s) := build fuel name p s in
          match err with
          | Some err => Done (Some err) s
          | None => build_all fuel order s
          end
      end
  end.

(** [for _, fn := range s.ready { fn() }], the [i]-th callback first. *)
Fixpoint run_ready (fuel : nat) (i : nat) (fns : list (prog unit)) (s : Weave)
    : res Weave unit :=
  match fns with
  | [] => Done tt s
  | fn :: fns =>
      let* (_, s) := run (build fuel) fn (emit (EvReady i) s) in
      run_ready fuel (S i) fns s
  end.

(** [Build()]. *)
Definition Build (fuel : nat) (order : list string) (s : Weave)
    : res Weave (option error) :=
  if isBuilt s then Done None s
  else
    let* (err, s) := build_all fuel order s in
    match err with
    | Some err => Done (Some err) s
    | None =>
        let s := with_isBuilt true s in
        let* (_, s) := run_ready fuel 0 (ready s) s in
        Done None s
    end.

(** The two precondition panics. *)
Definition compact_panic : panic :=
  PanicString "cannot compact weave before Build() is called".
Definition extract_panic : panic :=
  PanicString "cannot extract services before Build() is called".

(** The body of the [Range] of [Compact]. *)
Definition compact_step (s : Weave) (name : string) : Weave :=
  match entries s !! name with
  | Some p => update_entry p compact_entry s
  | None => s
  end.

(** [Compact()]. *)
Definition Compact (order : list string) (s : Weave) : res Weave unit :=
  if negb (isBuilt s) then
    Panicked compact_panic s
  else
    Done tt (foldl compact_step (with_ready [] (with_ctx None s)) order).

(** The body of the [Range] of [Extract]. *)
Definition extract_step (s : Weave) (registry : gmap string loc) (name : string) :=
  match entries s !! name with
  | Some p =>
      match objs s !! p with
      | Some e => if built e then <[name := instance e]> registry else registry
      | None => registry
      end
  | None => registry
  end.

(** [Extract()]: the registry of the built entries' instances. *)
Definition Extract (order : list string) (s : Weave) : res Weave (gmap string loc) :=
  if negb (isBuilt s) then
    Panicked extract_panic s
  else
    Done (foldl (extract_step s) ∅ order) s.

End Weave.
Arguments entry : clear implicits.
Arguments Weave : clear implicits.

(** ** The dependency graph *)

(** Go's [<] and [<=] on strings: bytewise lexicographic. *)
Definition str_lt (a b : string) : Prop := String.ltb a b = true.
Definition str_le (a b : string) : Prop := String.leb a b = true.
Global Instance str_lt_dec a b : Decision (str_lt a b).
Proof. unfold str_lt. apply _. Defined.
Global Instance str_le_dec a b : Decision (str_le a b).
Proof. unfold str_le. apply _. Defined.

(** [sort.Strings]. *)
Definition sort_Strings (l : list string) : list string := merge_sort str_le l.

(** Reading a [map[string][]string]: a missing key reads as nil. *)
Definition adj (m : gmap string (list string)) (name : string) : list string :=
  default [] (m !! name).

(** Reading a [map[string]bool]: a missing key reads as false. *)
Definition getb (m : gmap string bool) (name : string) : bool :=
  default false (m !! name).

Record DependencyGraph := MkGraph {
  Dependencies : gmap string (list string);
  Dependents : gmap string (list string);
}.

(** The three loops of [GetDependencyGraph], each over a Go map: [order1]
    is the order of [s.entries.Range], [order2] and [order3] those of the
    two [range dependencies]. *)
Record orders := Orders {
  order1 : list string;
  order2 : list string;
  order3 : list string;
}.

Section Graph.
Context {T : Type}.
Implicit Types s : Weave T.

(** First loop: copy the entry's [dependsOn], give it a [dependents] list. *)
Definition init_step s (g : DependencyGraph) (name : string) : DependencyGraph :=
  match entries s !! name with
  | Some p =>
      match objs s !! p with
      | Some e =>
          MkGraph (<[name := dependsOn e]> (Dependencies g))
                  (match Dependents g !! name with
                   | None => <[name := []]> (Dependents g)
                   | Some _ => Dependents g
                   end)
      | None => g
      end
  | None => g
  end.

Definition init_graph (order : list string) s : DependencyGraph :=
  foldl (init_step s) (MkGraph ∅ ∅) order.

(** [dependents[dep] = append(dependents[dep], serviceName)]. *)
Definition add_dependent (serviceName : string)
    (dependents : gmap string (list string)) (dep : string) :=
  <[dep := adj dependents dep ++ [serviceName]]> dependents.

(** Second loop: invert every edge. *)
Definition invert_step (dependencies dependents : gmap string (list string))
    (serviceName : string) :=
  match dependencies !! serviceName with
  | Some deps => foldl (add_dependent serviceName) dependents deps
  | None => dependents
  end.

Definition invert (order : list string) (dependencies dependents : gmap string (list string)) :=
  foldl (invert_step dependencies) dependents order.

(** Third loop: sort both lists of every key of [dependencies]. *)
Definition sort_step (g : DependencyGraph) (name : string) : DependencyGraph :=
  match Dependencies g !! name with
  | Some _ =>
      MkGraph (alter sort_Strings name (Dependencies g))
              (alter sort_Strings name (Dependents g))
  | None => g
  end.

Definition sort_graph (order : list string) (g : DependencyGraph) : DependencyGraph :=
  foldl sort_step g order.

Definition GetDependencyGraph (o : orders) s : DependencyGraph :=
  let g := init_graph (order1 o) s in
  let dependents := invert (order2 o) (Dependencies g) (Dependents g) in
  sort_graph (order3 o) (MkGraph (Dependencies g) dependents).

End Graph.

(** ** Cycle detection *)

Section Detect.
Variable dependencies : gmap string (list string).

(** The variables the closure [dfs] captures. *)
Record dfs_state := DfsState {
  visited : gmap string bool;
  visiting : gmap string bool;
  path : list string;
}.

(** The cycle reported when [node] is met again: [node], then the path
    walked backwards up to and including its first occurrence. *)
Fixpoint walk_back (rpath : list string) (node : string) : list string :=
  match rpath with
  | [] => []
  | n :: rpath => n :: (if decide (n = node) then [] else walk_back rpath node)
  end.

Definition build_cycle (path : list string) (node : string) : list string :=
  node :: walk_back (reverse path) node.

(** The loop [for _, dep := range dependencies[node]] of [dfs], over the
    recursive call. *)
Definition dfs_each (dfs_rec : string → dfs_state → option (bool * list string * dfs_state))
    : list string → dfs_state → option (bool * list string * dfs_state) :=
  fix each deps st :=
    match deps with
    | [] => Some (false, [], st)
    | dep :: deps =>
        match dfs_rec dep st with
        | None => None
        | Some (true, cycle, st) => Some (true, cycle, st)
        | Some (false, _, st) => each deps st
        end
    end.

(** [dfs(node)]; [fuel] bounds the depth of the recursion. *)
Fixpoint dfs (fuel : nat) (node : string) (st : dfs_state)
    : option (bool * list string * dfs_state) :=
  match fuel with
  | O => None
  | S fuel =>
      if getb (visiting st) node then Some (true, build_cycle (path st) node, st)
      else if getb (visited st) node then Some (false, [], st)
      else
        let st := DfsState (visited st) (<[node := true]> (visiting st)) (path st ++ [node]) in
        match dfs_each (dfs fuel) (adj dependencies node) st with
        | None => None
        | Some (true, cycle, st) => Some (true, cycle, st)
        | Some (false, _, st) =>
            Some (false, [],
                  DfsState (<[node := true]> (visited st))
                           (<[node := false]> (visiting st))
                           (take (length (path st) - 1) (path st)))
        end
  end.

(** The loop [for node := range dependencies] of
    [detectCircularDependency]. *)
Fixpoint detect_roots (fuel : nat) (order : list string) (st : dfs_state)
    : option (bool * list string) :=
  match order with
  | [] => Some (false, [])
  | node :: order =>
      if getb (visited st) node then detect_roots fuel order st
      else
        match dfs fuel node st with
        | None => None
        | Some (true, cycle, _) => Some (true, cycle)
        | Some (false, _, st) => detect_roots fuel order st
        end
  end.

Definition detectCircularDependency (fuel : nat) (order : list string)
    : option (bool * list string) :=
  detect_roots fuel order (DfsState ∅ ∅ []).

(** ** Enumeration of all cycles *)

(** Index of the first occurrence of [node] in [path] ([cycleStart]). *)
Fixpoint index_of (node : string) (path : list string) : option nat :=
  match path with
  | [] => None
  | n :: path => if decide (n = node) then Some 0 else S <$> index_of node path
  end.

(** The loop [for _, dep := range dependencies[node]] of
    [findAllCyclesFromNode], over the recursive call. *)
Definition find_each
    (find_rec : string → gmap string bool → gmap string bool → list string →
                option (list (list string) * gmap string bool * gmap string bool))
    (path : list string)
    : list string → list (list string) → gmap string bool → gmap string bool →
      option (list (list string) * gmap string bool * gmap string bool) :=
  fix each deps cycles vd vg :=
    match deps with
    | [] => Some (cycles, vd, vg)
    | dep :: deps =>
        match find_rec dep vd vg path with
        | None => None
        | Some (subCycles, vd, vg) => each deps (cycles ++ subCycles) vd vg
        end
    end.

(** [findAllCyclesFromNode(node, dependencies, visited, visiting, path)];
    the two maps ([vd] is [visited], [vg] is [visiting]) are shared with the
    caller, the slice is not. *)
Fixpoint findAllCyclesFromNode (fuel : nat) (node : string)
    (vd vg : gmap string bool) (path : list string)
    : option (list (list string) * gmap string bool * gmap string bool) :=
  match fuel with
  | O => None
  | S fuel =>
      if getb vg node then
        match index_of node path with
        | Some cycleStart => Some ([drop cycleStart path ++ [node]], vd, vg)
        | None => Some ([], vd, vg)
        end
      else if getb vd node then Some ([], vd, vg)
      else
        let vg := <[node := true]> vg in
        let path := path ++ [node] in
        match find_each (findAllCyclesFromNode fuel) path (adj dependencies node) [] vd vg with
        | None => None
        | Some (cycles, vd, vg) =>
            Some (cycles, <[node := true]> vd, <[node := false]> vg)
        end
  end.

(** The loop of [GetAllCircularDependencies]: every node is a root, each
    with fresh maps. *)
Fixpoint all_roots (fuel : nat) (order : list string)
    (visited : gmap string bool) (allCycles : list (list string))
    : option (list (list string)) :=
  match order with
  | [] => Some allCycles
  | node :: order =>
      if getb visited node then all_roots fuel order visited allCycles
      else
        match findAllCyclesFromNode fuel node ∅ ∅ [] with
        | None => None
        | Some (cycles, _, _) =>
            all_roots fuel order (<[node := true]> visited) (allCycles ++ cycles)
        end
  end.

End Detect.

(** ** Normalisation and deduplication *)

(** The loop computing [minIdx]. *)
Definition min_index (cycle : list string) : nat :=
  fst (foldl (λ '(minIdx, i) item,
                (if decide (str_lt item (default item (cycle !! minIdx)))
                 then i else minIdx, S i))
             (0, 0) cycle).

(** [normalizeCycle(cycle)]. *)
Definition normalizeCycle (cycle : list string) : list string :=
  if decide (length cycle ≤ 1) then cycle
  else
    let minIdx := min_index cycle in
    (λ i, default "" (cycle !! ((minIdx + i) `mod` length cycle)))
      <$> seq 0 (length cycle).

(** [strings.Join(elems, sep)]. *)
Fixpoint Join (elems : list string) (sep : string) : string :=
  match elems with
  | [] => ""
  | [e] => e
  | e :: elems => e +:+ sep +:+ Join elems sep
  end.

(** [deduplicateCycles(cycles)]. *)
Definition deduplicateCycles (cycles : list (list string)) : list (list string) :=
  snd (foldl (λ '(seen, result) cycle,
                if decide (length cycle ≤ 1) then (seen, result)
                else
                  let normalized := normalizeCycle cycle in
                  let key := Join normalized "->" in
                  if getb seen key then (seen, result)
                  else (<[key := true]> seen, result ++ [normalized]))
             ((∅ : gmap string bool), []) cycles).

Section Analyser.
Context {T : Type}.
Implicit Types s : Weave T.

(** [HasCircularDependency()]; on top of the orders of the graph, [roots]
    is the order of [range dependencies] in [detectCircularDependency]. *)
Definition HasCircularDependency (fuel : nat) (o : orders) (roots : list string) s
    : option (bool * list string) :=
  detectCircularDependency (Dependencies (GetDependencyGraph o s)) fuel roots.

(** [GetAllCircularDependencies()]. *)
Definition GetAllCircularDependencies (fuel : nat) (o : orders) (roots : list string) s
    : option (list (list string)) :=
  deduplicateCycles <$>
    all_roots (Dependencies (GetDependencyGraph o s)) fuel roots ∅ [].

End Analyser.

(** * Vocabulary of the properties

    Nothing below is part of the Go package: these are the predicates the
    theorems are stated with, and the containers of the test suite. *)

(** Every list of the map is empty. *)
Definition all_nil (m : gmap string (list string)) : Prop :=
  ∀ name l, m !! name = Some l → l = [].

(** How many times a name occurs in a list. *)
Definition occ (x : string) (l : list string) : nat :=
  length (filter (λ y, y = x) l).

(** An iteration order of a Go map: every key, once. *)
Definition keys_of {A} (m : gmap string A) (order : list string) : Prop :=
  NoDup order ∧ ∀ name, name ∈ order ↔ is_Some (m !! name).

(** Both lists of [name] are sorted, where they exist. *)
Definition sorted_at (g : DependencyGraph) (name : string) : Prop :=
  (∀ l, Dependencies g !! name = Some l → Sorted str_le l) ∧
  (∀ l, Dependents g !! name = Some l → Sorted str_le l).

(** The last value the factory of [name] returned, by the log. *)
Fixpoint returned (name : string) (l : list event) : option product :=
  match l with
  | [] => None
  | ev :: l =>
      match returned name l with
      | Some r => Some r
      | None =>
          match ev with
          | EvReturn n r => if decide (n = name) then Some r else None
          | _ => None
          end
      end
  end.

(** The two-node cycle as a map. *)
Definition ab_cycle : gmap string (list string) :=
  <["A" := ["B"]]> (<["B" := ["A"]]> ∅).

Section Vocabulary.
Context {T : Type}.
Implicit Types s : Weave T.

(** The state Go code leaves, when it returns and when it panics. *)
Definition final {A} (r : res (Weave T) A) : option (Weave T) :=
  match r with
  | Done _ s | Panicked _ s => Some s
  | Fuel => None
  end.

(** The assignments [build] and the resolver make to the container. *)
Inductive step : Weave T → Weave T → Prop :=
| step_resolver r s : step s (with_getServiceFunc r s)
| step_built p b s : step s (update_entry p (set_built b) s)
| step_dep owner name s :
    is_Some (entries s !! name) → step s (update_entry owner (add_dependsOn name) s)
| step_emit e s : step s (emit e s)
| step_store p e v s :
    objs s !! p = Some e → step s (with_heap (<[instance e := v]> (heap s)) s).

(** What no assignment of a build touches. *)
Definition frame s s' : Prop :=
  entries s' = entries s ∧ isBuilt s' = isBuilt s ∧ ctx s' = ctx s ∧
  ready s' = ready s ∧ length (objs s') = length (objs s) ∧
  length (heap s') = length (heap s) ∧
  ∀ p e, objs s !! p = Some e →
         ∃ e', objs s' !! p = Some e' ∧ instance e' = instance e ∧ builder e' = builder e.

(** [entries[name].dependsOn], when the name has an entry. *)
Definition deps_of s (name : string) : option (list string) :=
  match entries s !! name with
  | Some p =>
      match objs s !! p with
      | Some e => Some (dependsOn e)
      | None => None
      end
  | None => None
  end.

(** Every [*entry] of the registry points into the store. *)
Definition ptrs_valid s : Prop :=
  ∀ name p, entries s !! name = Some p → p < length (objs s).

(** Every recorded dependency is a registered name. *)
Definition deps_closed s : Prop :=
  ∀ p e name, objs s !! p = Some e → name ∈ dependsOn e → is_Some (entries s !! name).

(** The states of a container: what the exported operations (and [assign])
    lead to from [New], whether they return or panic. *)
Inductive reachable : Weave T → Prop :=
| reach_New : reachable New
| reach_SetCtx c s : reachable s → reachable (SetCtx c s)
| reach_Ready fn s : reachable s → reachable (Ready fn s)
| reach_assign name placeholder b s :
    reachable s → reachable (assign name placeholder b s)
| reach_Provide zero name b s :
    reachable s → reachable (Provide zero name b s)
| reach_Build fuel order s s' :
    reachable s → final (Build fuel order s) = Some s' → reachable s'
| reach_GetService fuel name s s' :
    reachable s → final (GetService fuel name s) = Some s' → reachable s'
| reach_Compact order s s' :
    reachable s → final (Compact order s) = Some s' → reachable s'.

(** The orders in which Go may walk the three maps of
    [GetDependencyGraph]. *)
Definition valid_orders (o : orders) s : Prop :=
  keys_of (entries s) (order1 o) ∧
  keys_of (Dependencies (init_graph (order1 o) s)) (order2 o) ∧
  keys_of (Dependencies (init_graph (order1 o) s)) (order3 o).

(** States no successful [Build] has been through: registrations, and
    [Build]s that returned a failure. *)
Inductive before_build : Weave T → Prop :=
| bb_New : before_build New
| bb_SetCtx c s : before_build s → before_build (SetCtx c s)
| bb_Ready fn s : before_build s → before_build (Ready fn s)
| bb_assign name placeholder b s :
    before_build s → before_build (assign name placeholder b s)
| bb_Provide zero name b s :
    before_build s → before_build (Provide zero name b s)
| bb_Build fuel order err s s' :
    before_build s → Build fuel order s = Done (Some err) s' → before_build s'.

(** The slot of the entry holds what its factory last returned. *)
Definition populated s (name : string) (e : entry T) : Prop :=
  ∃ v, returned name (log s) = Some (Ptr v) ∧ heap s !! instance e = Some v.

(** Registrations through [Provide]: the states [Build] starts from. *)
Inductive registered : Weave T → Prop :=
| reg_New : registered New
| reg_SetCtx c s : registered s → registered (SetCtx c s)
| reg_Ready fn s : registered s → registered (Ready fn s)
| reg_Provide zero name b s : registered s → registered (Provide zero name b s).

(** Distinct names have distinct entries, distinct entries have distinct
    output slots, and all pointers are valid. *)
Record separated s : Prop := {
  sep_ptrs : ∀ name p, entries s !! name = Some p → p < length (objs s);
  sep_names : ∀ n m p, entries s !! n = Some p → entries s !! m = Some p → n = m;
  sep_slots : ∀ p q e e', objs s !! p = Some e → objs s !! q = Some e' →
                          instance e = instance e' → p = q;
  sep_valid : ∀ p e, objs s !! p = Some e → instance e < length (heap s);
}.

(** Every built entry is under construction (its name is in [S]) or
    populated. *)
Definition built_populated (S : gset string) s : Prop :=
  ∀ name p e, entries s !! name = Some p → objs s !! p = Some e → built e = true →
              name ∈ S ∨ populated s name e.

(** Built entries stay built. *)
Definition keeps_built s s' : Prop :=
  ∀ q e, objs s !! q = Some e → built e = true →
         ∃ e', objs s' !! q = Some e' ∧ built e' = true.

(** What the invariant asks of a [build]. *)
Definition build_ok (rec : string → eptr → Weave T → res (Weave T) (option error)) : Prop :=
  ∀ S name p s r s',
    separated s → built_populated S s → entries s !! name = Some p →
    rec name p s = Done r s' →
    built_populated S s' ∧ keeps_built s s' ∧
    (r = None → ∃ e, objs s' !! p = Some e ∧ built e = true).

(** A factory that requests each name of [deps] with [MustMake] and then
    returns a struct built from the pointers it got. *)
Fixpoint requesting (deps : list string) (got : list loc) (v : list loc → value)
    : prog (option value) :=
  match deps with
  | [] => Ret (Some (v got))
  | dep :: deps => MustMake dep (λ obj, requesting deps (got ++ [obj]) v)
  end.

(** The container of [TestDI_CircularDependencyDetection]: A -> B -> A. *)
Definition two_cycle (c : option T) (zA zB : value) (vA vB : list loc → value) : Weave T :=
  Provide zB "B" (λ _, requesting ["A"] [] vB)
    (Provide zA "A" (λ _, requesting ["B"] [] vA) (SetCtx c New)).

(** One cycle: A -> B -> C -> A. *)
Definition three_cycle : Weave T :=
  Provide [] "C" (λ _, requesting ["A"] [] (λ _, []))
    (Provide [] "B" (λ _, requesting ["C"] [] (λ _, []))
       (Provide [] "A" (λ _, requesting ["B"] [] (λ _, [])) New)).

(** The container of [TestDI_ComplexCircularDependencies]:
    A -> B -> C -> A and B -> D -> B. *)
Definition two_cycles : Weave T :=
  Provide [] "D" (λ _, requesting ["B"] [] (λ _, []))
    (Provide [] "C" (λ _, requesting ["A"] [] (λ _, []))
       (Provide [] "B" (λ _, requesting ["C"; "D"] [] (λ _, []))
          (Provide [] "A" (λ _, requesting ["B"] [] (λ _, [])) New))).

(** An entry whose factory returns nil, registered with [assign]. *)
Definition one_failing : Weave T :=
  assign "A" 0 (λ _, Ret Nil) (with_heap [[FStr ""]] New).

(** The same after an entry whose factory returns a [ServiceA]. *)
Definition partly_failing : Weave T :=
  assign "B" 1 (λ _, Ret Nil)
    (assign "A" 0 (λ _, Ret (Ptr [FStr "ServiceA"]))
       (with_heap [[FStr ""]; [FStr ""]] New)).

(** A factory that asks for a name nobody registered, ignores the error
    and returns its struct. *)
Definition ask_missing : option T → prog product :=
  λ _, Call "missing" (λ _, Ret (Ptr [FStr "ServiceA"])).

(** The container with that one factory. *)
Definition asking_missing : Weave T :=
  assign "A" 0 ask_missing (with_heap [[FStr ""]] New).

(** [GetService(name)] returns an instance that is built and holds what
    its factory returned. *)
Definition observable_built s (name : string) : Prop :=
  ∃ fuel obj v p s',
    GetService fuel name s = Done (inl obj) s' ∧
    entries s !! name = Some p ∧ built <$> objs s !! p = Some true ∧
    EvReturn name (Ptr v) ∈ log s ∧ heap s' !! obj = Some v.

(** C5 as stated: after a [Build] that returned a failure no service is
    observable as built. *)
Definition atomic_failure (fuel : nat) (order : list string) s : Prop :=
  ∀ err s', Build fuel order s = Done (Some err) s' →
            ∀ name, ¬ observable_built s' name.

(** C8 as stated, for the first of its two causes: when a factory requests
    a name that has no entry, [Build] returns a failure. *)
Definition not_found_fails (fuel : nat) (order : list string) s : Prop :=
  ∀ name p e b missing k,
    entries s !! name = Some p → objs s !! p = Some e → builder e = Some b →
    b (ctx s) = Call missing k → entries s !! missing = None →
    ∃ err s', Build fuel order s = Done (Some err) s'.

(** [rec'] returns whatever [rec] returns. *)
Definition extends (rec rec' : string → eptr → Weave T → res (Weave T) (option error)) : Prop :=
  ∀ name p s, rec name p s ≠ Fuel → rec' name p s = rec name p s.

(** Every builder is a wrapper made by [Provide]. *)
Definition wrapped s : Prop :=
  ∀ p e b, objs s !! p = Some e → builder e = Some b → ∃ b', b = λ c, wrap (b' c).

(** A typed factory that returns a nil [*R]. *)
Definition typed_nil : Weave T :=
  Provide [FStr ""] "A" (λ _, Ret None) New.

(** The scenario of the specification, A, B -> A, C -> A and B, with
    [ServiceA{Name}], [ServiceB{Name, ServiceA}] and
    [ServiceC{Name, ServiceA, ServiceB}] of the test suite. *)
Definition abc : Weave T :=
  Provide [FStr ""; FRef None; FRef None] "C"
    (λ _, requesting ["A"; "B"] [] (λ got, [FStr "ServiceC"; FRef (got !! 0); FRef (got !! 1)]))
    (Provide [FStr ""; FRef None] "B"
       (λ _, requesting ["A"] [] (λ got, [FStr "ServiceB"; FRef (got !! 0)]))
       (Provide [FStr ""] "A" (λ _, requesting [] [] (λ _, [FStr "ServiceA"])) New)).
End Vocabulary.

Section CycleVocabulary.
Variable dependencies : gmap string (list string).

(** A name of the graph: a key, or a dependency some key records. *)
Definition node_of (n : string) : Prop :=
  is_Some (dependencies !! n) ∨ ∃ m, n ∈ adj dependencies m.

(** The nodes being visited are on the path, and the path is made of names
    of the graph. *)
Definition dfs_inv (st : dfs_state) : Prop :=
  (∀ n, getb (visiting st) n = true → n ∈ path st) ∧
  (∀ n, n ∈ path st → node_of n).

(** A closed cycle over names of the graph. *)
Definition closed_cycle (cycle : list string) : Prop :=
  2 ≤ length cycle ∧
  (∃ node, head cycle = Some node ∧ last cycle = Some node) ∧
  (∀ n, n ∈ cycle → node_of n).

(** What a [dfs] that returns establishes. *)
Definition dfs_post (st : dfs_state) (r : bool * list string * dfs_state) : Prop :=
  match r with
  | (true, cycle, _) => closed_cycle cycle
  | (false, _, st') => dfs_inv st' ∧ path st' = path st
  end.
End CycleVocabulary.

(** Name the state a computation ends in. *)
Ltac exists_final :=
  match goal with
  | |- ∃ s', ?b = _ ∧ _ =>
      let r := eval vm_compute in b in
      match r with
      | Done _ ?s0 => exists s0
      | Panicked _ ?s0 => exists s0
      end
  end.

(** * Properties

    ** How a build changes the state

    Every state change of [build] and of the resolver is one of five
    assignments; what they all preserve holds across any build, whether
    it returns or panics. *)

Section Steps.
Context {T : Type}.
Implicit Types s : Weave T.

Lemma final_bind {A B} (r : res (Weave T) A) (k : A → Weave T → res (Weave T) B) s' :
  final (res_bind r k) = Some s' →
  (∃ p, r = Panicked p s') ∨ (∃ a s1, r = Done a s1 ∧ final (k a s1) = Some s').
Proof. destruct r; simpl; intros; simplify_eq; eauto. Qed.

Section Rec.
Variable rec : string → eptr → Weave T → res (Weave T) (option error).
Hypothesis rec_steps : ∀ name p s s', final (rec name p s) = Some s' → rtc step s s'.

Lemma call_steps name s s' :
  final (call_getServiceFunc rec name s) = Some s' → rtc step s s'.
Proof.
  unfold call_getServiceFunc.
  destruct (getServiceFunc s).
  - repeat case_match; simpl; intros; simplify_eq; done.
  - destruct (entries s !! name) as [p|] eqn:Hp; [|simpl; intros; simplify_eq; done].
    assert (step s (update_entry owner (add_dependsOn name) s)) as Hs by (constructor; eauto).
    destruct (objs _ !! p) as [e|]; [|simpl; intros; simplify_eq; by apply rtc_once].
    destruct (built e); [simpl; intros; simplify_eq; by apply rtc_once|].
    intros [[? Hr]|(err & s1 & Hr & Hk)]%final_bind.
    + etrans; [by apply rtc_once|]. apply (rec_steps name p). by rewrite Hr.
    + etrans; [by apply rtc_once|].
      assert (rtc step (update_entry owner (add_dependsOn name) s) s1) as Hs1
        by (apply (rec_steps name p); by rewrite Hr).
      repeat case_match; simpl in Hk; simplify_eq; done.
Qed.

Lemma run_steps {A} (t : prog A) s s' :
  final (run rec t s) = Some s' → rtc step s s'.
Proof.
  revert s. induction t as [a|name k IH|p k IH|p]; simpl; intros s.
  - intros; simplify_eq; done.
  - intros [[? Hr]|(a & s1 & Hr & Hk)]%final_bind.
    + apply (call_steps name). by rewrite Hr.
    + etrans; [apply (call_steps name); by rewrite Hr|]. by eapply IH.
  - destruct (heap s !! p); simpl; [apply IH|intros; simplify_eq; done].
  - intros; simplify_eq; done.
Qed.
End Rec.

Lemma build_steps fuel name p s s' :
  final (build fuel name p s) = Some s' → rtc step s s'.
Proof.
  revert name p s s'. induction fuel as [|fuel IH]; intros name p s s'; simpl; [done|].
  destruct (objs s !! p) as [e|]; [|simpl; intros; simplify_eq; done].
  destruct (built e); [simpl; intros; simplify_eq; done|].
  set (s1 := update_entry p (set_built true) (with_getServiceFunc (Recording p) s)).
  assert (rtc step s s1) as Hs1.
  { eapply rtc_l; [apply (step_resolver (Recording p))|]. apply rtc_once, step_built. }
  destruct (builder e) as [b|]; [|simpl; intros; simplify_eq; done].
  intros [[? Hr]|(inst & s2 & Hr & Hk)]%final_bind.
  - etrans; [done|]. eapply rtc_l; [apply (step_emit (EvCall name))|].
    eapply (run_steps _ IH). by erewrite Hr.
  - assert (rtc step s s2) as Hs2.
    { etrans; [done|]. eapply rtc_l; [apply (step_emit (EvCall name))|].
      eapply (run_steps _ IH). by erewrite Hr. }
    etrans; [done|]. eapply rtc_l; [apply (step_emit (EvReturn name inst))|].
    destruct inst; simpl in Hk.
    + simplify_eq. apply rtc_once, step_built.
    + simplify_eq. done.
    + destruct (objs s2 !! p) as [e2|] eqn:He2; simpl in Hk; simplify_eq; [|done].
      eapply rtc_l; [by eapply (step_store p e2 v)|].
      apply rtc_once. apply step_resolver.
Qed.
End Steps.

Section Frame.
Context {T : Type}.
Implicit Types s : Weave T.

Lemma frame_refl s : frame s s.
Proof. unfold frame. naive_solver. Qed.

Lemma frame_trans s1 s2 s3 : frame s1 s2 → frame s2 s3 → frame s1 s3.
Proof.
  intros (?&?&?&?&?&?&Ha) (?&?&?&?&?&?&Hb). repeat split; try congruence.
  intros p e He. destruct (Ha p e He) as (e'&He'&?&?).
  destruct (Hb p e' He') as (e''&?&?&?). exists e''. split_and!; congruence.
Qed.

Lemma lookup_alter_entry (f : entry T → entry T) (l : list (entry T)) p q e :
  l !! q = Some e →
  alter f p l !! q = Some (if decide (p = q) then f e else e).
Proof.
  intros He. rewrite list_lookup_alter. case_decide; simplify_eq; by rewrite He.
Qed.

Lemma update_entry_frame p (f : entry T → entry T) s :
  (∀ e, instance (f e) = instance e ∧ builder (f e) = builder e) →
  frame s (update_entry p f s).
Proof.
  intros Hf. unfold frame, update_entry; simpl. rewrite length_alter.
  split_and!; try done. intros q e He.
  eexists. split; [by apply lookup_alter_entry|]. case_decide; [apply Hf|done].
Qed.

Lemma step_frame s s' : step s s' → frame s s'.
Proof.
  destruct 1.
  - unfold frame; simpl. naive_solver.
  - by apply update_entry_frame.
  - by apply update_entry_frame.
  - unfold frame; simpl. naive_solver.
  - unfold frame; simpl. rewrite length_insert. naive_solver.
Qed.

Lemma steps_frame s s' : rtc step s s' → frame s s'.
Proof.
  induction 1 as [|s1 s2 s3 H12 _ IH]; [apply frame_refl|].
  eapply frame_trans; [by apply step_frame|done].
Qed.

Lemma build_frame fuel name p s s' :
  final (build fuel name p s) = Some s' → frame s s'.
Proof. intros. by eapply steps_frame, build_steps. Qed.

Lemma build_all_steps fuel order s s' :
  final (build_all fuel order s) = Some s' → rtc step s s'.
Proof.
  revert s. induction order as [|name order IH]; simpl; intros s.
  - intros; simplify_eq; done.
  - destruct (entries s !! name) as [p|]; [|apply IH].
    intros [[? Hr]|(err & s1 & Hr & Hk)]%final_bind.
    + apply (build_steps fuel name p). by rewrite Hr.
    + etrans; [apply (build_steps fuel name p); by rewrite Hr|].
      destruct err; simpl in Hk; simplify_eq; [done|by apply IH].
Qed.

Lemma run_ready_steps fuel i fns s s' :
  final (run_ready fuel i fns s) = Some s' → rtc step s s'.
Proof.
  revert i s. induction fns as [|fn fns IH]; simpl; intros i s.
  - intros; simplify_eq; done.
  - intros [[? Hr]|(err & s1 & Hr & Hk)]%final_bind.
    + eapply rtc_l; [apply (step_emit (EvReady i))|].
      eapply (run_steps _ (build_steps fuel)). by erewrite Hr.
    + eapply rtc_l; [apply (step_emit (EvReady i))|].
      etrans; [eapply (run_steps _ (build_steps fuel)); by erewrite Hr|]. by eapply IH.
Qed.

(** [Build] sets the flag between the two loops and does nothing else of
    its own. *)
Lemma Build_cases fuel order s s' :
  final (Build fuel order s) = Some s' →
  rtc step s s' ∨
  ∃ s1, build_all fuel order s = Done None s1 ∧ rtc step (with_isBuilt true s1) s'.
Proof.
  unfold Build. destruct (isBuilt s); [simpl; intros; simplify_eq; by left|].
  intros [[? Hr]|(err & s1 & Hr & Hk)]%final_bind.
  - left. apply (build_all_steps fuel order). by rewrite Hr.
  - destruct err as [err|]; simpl in Hk; simplify_eq.
    + left. apply (build_all_steps fuel order). by rewrite Hr.
    + right. exists s1. split; [done|].
      apply final_bind in Hk as [[? Hr']|(? & s2 & Hr' & Hk)].
      * apply (run_ready_steps fuel 0 (ready s1)). by rewrite Hr'.
      * simpl in Hk. simplify_eq. apply (run_ready_steps fuel 0 (ready s1)). by rewrite Hr'.
Qed.

Lemma Build_sets_flag fuel order s s' :
  Build fuel order s = Done None s' → isBuilt s' = true.
Proof.
  intros HB. unfold Build in HB. destruct (isBuilt s) eqn:Hb; [by simplify_eq|].
  destruct (build_all fuel order s) as [[err|] s1| |] eqn:Hall; simpl in HB; try done.
  destruct (run_ready fuel 0 (ready s1) (with_isBuilt true s1)) as [[] s2| |] eqn:Hrr;
    simpl in HB; simplify_eq.
  assert (frame (with_isBuilt true s1) s') as (_&->&_).
  { apply steps_frame, (run_ready_steps fuel 0 (ready s1)). by rewrite Hrr. }
  done.
Qed.

(** A failing [build] can only be the [instance == nil] branch. *)
Lemma build_error fuel name p s err s' :
  build fuel name p s = Done (Some err) s' →
  err = BuildFailed name ∧
  last (log s') = Some (EvReturn name Nil) ∧
  ∃ e, objs s' !! p = Some e ∧ built e = false.
Proof.
  destruct fuel as [|fuel]; simpl; [done|].
  destruct (objs s !! p) as [e|] eqn:He; [|done].
  destruct (built e); [done|]. destruct (builder e) as [b|]; [|done].
  match goal with |- context [run ?r ?t ?s0] => destruct (run r t s0) as [inst s2| |] eqn:Hr end;
    simpl; try done.
  destruct inst; try done.
  - intros; simplify_eq. split_and!; [done|simpl; by rewrite last_snoc|].
    assert (frame s s2) as (_&_&_&_&Hlen&_).
    { eapply frame_trans; [|eapply steps_frame, (run_steps _ (build_steps fuel)); by erewrite Hr].
      eapply frame_trans; [apply step_frame, (step_resolver (Recording p))|].
      eapply frame_trans; [apply step_frame, (step_built p true)|].
      apply step_frame, step_emit. }
    assert (is_Some (objs s2 !! p)) as [e2 He2].
    { apply lookup_lt_is_Some. rewrite Hlen. by eapply lookup_lt_Some. }
    exists (set_built false e2). split; [|done].
    unfold update_entry; simpl.
    rewrite (lookup_alter_entry _ _ p p e2 He2). by rewrite decide_True.
  - case_match; done.
Qed.

Lemma build_all_error fuel order s err s' :
  build_all fuel order s = Done (Some err) s' →
  ∃ pre name rest s1 p,
    order = pre ++ name :: rest ∧ build_all fuel pre s = Done None s1 ∧
    entries s1 !! name = Some p ∧ build fuel name p s1 = Done (Some err) s'.
Proof.
  revert s. induction order as [|name order IH]; simpl; intros s; [done|].
  destruct (entries s !! name) as [p|] eqn:Hp.
  - destruct (build fuel name p s) as [[e|] s1| |] eqn:Hb; simpl; try done.
    + intros; simplify_eq. by exists [], name, order, s, p.
    + intros (pre & n & rest & s2 & q & -> & Hpre & Hq & Hb')%IH.
      exists (name :: pre), n, rest, s2, q. split_and!; try done.
      simpl. by rewrite Hp, Hb.
  - intros (pre & n & rest & s2 & q & -> & Hpre & Hq & Hb')%IH.
    exists (name :: pre), n, rest, s2, q. split_and!; try done.
    simpl. by rewrite Hp.
Qed.

Lemma build_all_app fuel pre post s :
  build_all fuel (pre ++ post) s =
    let* (err, s) := build_all fuel pre s in
    match err with
    | Some err => Done (Some err) s
    | None => build_all fuel post s
    end.
Proof.
  revert s. induction pre as [|name pre IH]; simpl; intros s; [done|].
  destruct (entries s !! name) as [p|]; [|done].
  destruct (build fuel name p s) as [[e|] s1| |]; simpl; try done.
Qed.

End Frame.

(** ** Build: idempotence and failure *)

Section BuildFacts.
Context {T : Type}.
Implicit Types s : Weave T.

(** C7. Once the built flag is set, in particular after a [Build] that
    returned success, [Build] returns success at once and leaves the whole
    state as it is, the log of calls into factories and ready callbacks
    included. *)
Theorem Build_idempotent fuel0 order0 s0 fuel order s :
  isBuilt s = true ∨ Build fuel0 order0 s0 = Done None s →
  Build fuel order s = Done None s.
Proof.
  intros H. assert (isBuilt s = true) as Hb.
  { destruct H as [|H]; [done|]. by eapply Build_sets_flag. }
  unfold Build. by rewrite Hb.
Qed.

(** The passive resolver changes nothing. *)
Lemma run_passive {A} rec (t : prog A) s r :
  getServiceFunc s = Passive → run rec t s = r → final r = Some s.
Proof.
  intros Hp <-. induction t as [a|name k IH|p k IH|p]; simpl; try done.
  - unfold call_getServiceFunc. rewrite Hp.
    destruct (entries s !! name) as [q|]; simpl; [|apply IH].
    destruct (objs s !! q); simpl; [apply IH|done].
  - destruct (heap s !! p); simpl; [apply IH|done].
Qed.

(** A [build] that returns success puts back the resolver it found. *)
Lemma build_restores fuel name p s s' :
  build fuel name p s = Done None s' → getServiceFunc s' = getServiceFunc s.
Proof.
  destruct fuel as [|fuel]; simpl; [done|].
  destruct (objs s !! p) as [e|]; [|done].
  destruct (built e); [by intros; simplify_eq|].
  destruct (builder e) as [b|]; [|done].
  match goal with |- context [run ?r ?t ?s0] => destruct (run r t s0) as [[| |v] s2| |] end;
    simpl; try done.
  case_match; [|done]. by intros; simplify_eq.
Qed.

Lemma build_all_restores fuel order s s' :
  build_all fuel order s = Done None s' → getServiceFunc s' = getServiceFunc s.
Proof.
  revert s. induction order as [|name order IH]; simpl; intros s; [by intros; simplify_eq|].
  destruct (entries s !! name) as [p|]; [|apply IH].
  destruct (build fuel name p s) as [[err|] s1| |] eqn:Hb; simpl; try done.
  intros ->%IH. by eapply build_restores.
Qed.

Lemma run_ready_passive fuel i fns s r :
  getServiceFunc s = Passive → run_ready fuel i fns s = r →
  ∃ s', final r = Some s' ∧ getServiceFunc s' = Passive.
Proof.
  revert i s r. induction fns as [|fn fns IH]; simpl; intros i s r Hp <-.
  { exists s. by split. }
  destruct (run (build fuel) fn (emit (EvReady i) s)) as [[] s1| |] eqn:Hr.
  - apply run_passive in Hr; [|exact Hp]. simpl in Hr. simplify_eq. simpl.
    exact (IH (S i) (emit (EvReady i) s) _ Hp eq_refl).
  - apply run_passive in Hr; [|exact Hp]. simpl in Hr. simplify_eq. simpl. by eauto.
  - apply run_passive in Hr; [|exact Hp]. done.
Qed.

(** The path of [build] that succeeds restores the resolver: after a
    successful [Build] of a container whose resolver was the passive one, it
    is the passive one again. *)
Lemma Build_success_resolver fuel order s s' :
  getServiceFunc s = Passive → Build fuel order s = Done None s' →
  getServiceFunc s' = Passive.
Proof.
  intros Hp. unfold Build. destruct (isBuilt s); [by intros; simplify_eq|].
  destruct (build_all fuel order s) as [[err|] s1| |] eqn:Hall; simpl; try done.
  apply build_all_restores in Hall.
  destruct (run_ready _ _ _ _) as [[] s2| |] eqn:Hrr; simpl; try done.
  intros; simplify_eq.
  eapply run_ready_passive in Hrr as (s2 & Hf & ?); [|simpl; congruence].
  simpl in Hf. by simplify_eq.
Qed.

(** C8, as the code has it.  When the build of an entry reached by the
    loop of [Build] returns an error, [Build] returns that error at once:
    the state it leaves is the one that build left, so no later entry was
    attempted, and the built flag is unset.  The error can only be "build
    failed" for that entry, whose factory returned nil and which is unbuilt
    again.  A request for a name that has no entry does not fail a build:
    the resolver hands "service not found" to the factory that asked. *)
Theorem Build_failure fuel pre name rest s s1 p err s' :
  isBuilt s = false →
  build_all fuel pre s = Done None s1 →
  entries s1 !! name = Some p →
  build fuel name p s1 = Done (Some err) s' →
  Build fuel (pre ++ name :: rest) s = Done (Some err) s' ∧
  isBuilt s' = false ∧
  err = BuildFailed name ∧
  last (log s') = Some (EvReturn name Nil) ∧
  (∃ e, objs s' !! p = Some e ∧ built e = false) ∧
  (∀ rec missing s2,
     entries s2 !! missing = None →
     call_getServiceFunc rec missing s2 = Done (inr (NotFound missing)) s2).
Proof.
  intros Hb Hpre Hp Hbuild.
  destruct (build_error _ _ _ _ _ _ Hbuild) as (-> & Hlast & He).
  split_and!; try done.
  - unfold Build. rewrite Hb, build_all_app, Hpre. simpl. by rewrite Hp, Hbuild.
  - assert (frame s s1) as (_&Hb1&_).
    { apply steps_frame, (build_all_steps fuel pre). by rewrite Hpre. }
    assert (frame s1 s') as (_&Hb2&_).
    { apply (build_frame fuel name p). by rewrite Hbuild. }
    congruence.
  - intros rec missing s2 Hm. unfold call_getServiceFunc. rewrite Hm.
    by destruct (getServiceFunc s2).
Qed.

(** A [Build] that returned a failure has not set the flag. *)
Lemma Build_error_flag fuel order s err s' :
  Build fuel order s = Done (Some err) s' → isBuilt s' = false.
Proof.
  unfold Build. destruct (isBuilt s) eqn:Hb; [done|].
  destruct (build_all fuel order s) as [[err'|] s1| |] eqn:Hall; simpl; try done.
  - intros [= -> ->]. assert (frame s s') as (_ & ? & _); [|congruence].
    apply steps_frame, (build_all_steps fuel order). by rewrite Hall.
  - by destruct (run_ready _ _ _ _) as [[] ?| |].
Qed.

(** C5, as the code has it.  After a [Build] that returned a failure the
    built flag is unset, so that [Compact] and [Extract] still panic, and
    the entry whose factory failed is unbuilt.  (The entries built earlier
    in the pass are not rolled back: they may stay built and observable.) *)
Theorem Build_failure_state fuel order s err s' :
  Build fuel order s = Done (Some err) s' →
  isBuilt s' = false ∧
  (∀ o, Compact o s' = Panicked compact_panic s') ∧
  (∀ o, Extract o s' = Panicked extract_panic s') ∧
  ∃ name p e,
    name ∈ order ∧ err = BuildFailed name ∧
    entries s' !! name = Some p ∧ objs s' !! p = Some e ∧ built e = false.
Proof.
  unfold Build. destruct (isBuilt s) eqn:Hb; [done|].
  destruct (build_all fuel order s) as [[err'|] s1| |] eqn:Hall; simpl; try done.
  - intros; simplify_eq.
    apply build_all_error in Hall as (pre & name & rest & s1 & p & -> & Hpre & Hp & Hbuild).
    assert (isBuilt s' = false) as Hb'.
    { assert (frame s s') as (_&?&_); [|congruence].
      apply steps_frame, (build_all_steps fuel (pre ++ name :: rest)).
      rewrite build_all_app, Hpre. simpl. by rewrite Hp, Hbuild. }
    split_and!; try done.
    + intros o. unfold Compact. by rewrite Hb'.
    + intros o. unfold Extract. by rewrite Hb'.
    + destruct (build_error _ _ _ _ _ _ Hbuild) as (-> & _ & e & He & ?).
      exists name, p, e. split_and!; try done.
      * set_solver.
      * assert (frame s1 s') as (->&_); [|done].
        apply (build_frame fuel name p). by rewrite Hbuild.
  - by destruct (run_ready _ _ _ _) as [[] ?| |].
Qed.

End BuildFacts.

(** ** More fuel changes nothing *)

Section FuelFacts.
Context {T : Type}.
Implicit Types s : Weave T.

Lemma res_bind_fuel {A B} (r : res (Weave T) A) (k : A → Weave T → res (Weave T) B) :
  res_bind r k ≠ Fuel → r ≠ Fuel.
Proof. by destruct r. Qed.

Lemma call_extends rec rec' name s :
  extends rec rec' →
  call_getServiceFunc rec name s ≠ Fuel →
  call_getServiceFunc rec' name s = call_getServiceFunc rec name s.
Proof.
  intros Hext. unfold call_getServiceFunc.
  destruct (getServiceFunc s); [done|].
  destruct (entries s !! name) as [p|]; [|done].
  destruct (objs _ !! p) as [e|]; [|done].
  destruct (built e); [done|].
  intros Hf. by rewrite Hext by (by apply res_bind_fuel in Hf).
Qed.

Lemma run_extends {A} rec rec' (t : prog A) s :
  extends rec rec' → run rec t s ≠ Fuel → run rec' t s = run rec t s.
Proof.
  intros Hext. revert s. induction t as [a|name k IH|p k IH|p]; simpl; intros s; try done.
  - intros Hf. rewrite (call_extends rec rec') by (done || by apply res_bind_fuel in Hf).
    destruct (call_getServiceFunc rec name s) as [a s1| |]; simpl in *; try done.
    by apply IH.
  - destruct (heap s !! p); [apply IH|done].
Qed.

Lemma build_S fuel : extends (build (T:=T) fuel) (build (S fuel)).
Proof.
  induction fuel as [|fuel IH]; intros name p s; [done|].
  cbn [build].
  destruct (objs s !! p) as [e|]; [|done].
  destruct (built e); [done|]. destruct (builder e) as [b|]; [|done].
  intros Hf. by rewrite (run_extends (build fuel) (build (S fuel)))
    by (done || by apply res_bind_fuel in Hf).
Qed.

Lemma build_le fuel fuel' : fuel ≤ fuel' → extends (build (T:=T) fuel) (build fuel').
Proof.
  induction 1 as [|fuel' _ IH]; [done|].
  intros name p s Hf. rewrite build_S; [by apply IH|]. by rewrite IH.
Qed.

Lemma build_all_le fuel fuel' order s :
  fuel ≤ fuel' → build_all fuel order s ≠ Fuel →
  build_all fuel' order s = build_all fuel order s.
Proof.
  intros Hle. revert s. induction order as [|name order IH]; intros s; simpl; [done|].
  destruct (entries s !! name) as [p|]; [|apply IH].
  intros Hf. rewrite (build_le fuel fuel') by (done || by apply res_bind_fuel in Hf).
  destruct (build fuel name p s) as [[err|] s1| |]; simpl in *; try done. by apply IH.
Qed.

Lemma run_ready_le fuel fuel' i fns s :
  fuel ≤ fuel' → run_ready fuel i fns s ≠ Fuel →
  run_ready fuel' i fns s = run_ready fuel i fns s.
Proof.
  intros Hle. revert i s. induction fns as [|fn fns IH]; intros i s; simpl; [done|].
  intros Hf. rewrite (run_extends (build fuel) (build fuel'))
    by (by apply build_le || by apply res_bind_fuel in Hf).
  destruct (run (build fuel) fn _) as [[] s1| |]; simpl in *; try done. by apply IH.
Qed.

(** A [Build] that returned or panicked with some fuel does the same with
    more. *)
Lemma Build_le fuel fuel' order s :
  fuel ≤ fuel' → Build fuel order s ≠ Fuel → Build fuel' order s = Build fuel order s.
Proof.
  intros Hle. unfold Build. destruct (isBuilt s); [done|].
  intros Hf. rewrite (build_all_le fuel fuel') by (done || by apply res_bind_fuel in Hf).
  destruct (build_all fuel order s) as [[err|] s1| |]; simpl in *; try done.
  rewrite (run_ready_le fuel fuel') by (done || by apply res_bind_fuel in Hf). done.
Qed.

(** The wrapper of [Provide] never returns the nil interface. *)
Lemma run_wrap_not_Nil rec (t : prog (option value)) s s' :
  run rec (wrap t) s ≠ Done Nil s'.
Proof.
  revert s. induction t as [[v|]|name k IH|p k IH|p]; simpl; intros s; try done.
  - destruct (call_getServiceFunc rec name s) as [a s1| |]; simpl; [apply IH|done..].
  - destruct (heap s !! p); [apply IH|done].
Qed.
End FuelFacts.

Section DfsFuel.
Variable dependencies : gmap string (list string).

Lemma dfs_each_extends rec rec' deps st :
  (∀ node st, rec node st ≠ None → rec' node st = rec node st) →
  dfs_each rec deps st ≠ None → dfs_each rec' deps st = dfs_each rec deps st.
Proof.
  intros Hext. revert st. induction deps as [|dep deps IH]; intros st; simpl; [done|].
  intros Hf. rewrite Hext by (by destruct (rec dep st)).
  destruct (rec dep st) as [[[[] ?] ?]|]; try done. by apply IH.
Qed.

Lemma dfs_S fuel node st :
  dfs dependencies fuel node st ≠ None →
  dfs dependencies (S fuel) node st = dfs dependencies fuel node st.
Proof.
  revert node st. induction fuel as [|fuel IH]; intros node st; [done|].
  remember (S fuel) as fuel1. simpl. subst fuel1. simpl.
  destruct (getb (visiting st) node); [done|]. destruct (getb (visited st) node); [done|].
  intros Hf.
  rewrite (dfs_each_extends (dfs dependencies fuel) (dfs dependencies (S fuel)));
    [done|exact IH|].
  by destruct (dfs_each (dfs dependencies fuel) _ _).
Qed.

Lemma dfs_le fuel fuel' node st :
  fuel ≤ fuel' → dfs dependencies fuel node st ≠ None →
  dfs dependencies fuel' node st = dfs dependencies fuel node st.
Proof.
  induction 1 as [|fuel' _ IH]; [done|].
  intros Hf. rewrite dfs_S; [by apply IH|]. by rewrite IH.
Qed.

(** A detection that returned with some fuel returns the same with more. *)
Lemma detect_le fuel fuel' order :
  fuel ≤ fuel' → detectCircularDependency dependencies fuel order ≠ None →
  detectCircularDependency dependencies fuel' order
  = detectCircularDependency dependencies fuel order.
Proof.
  intros Hle. unfold detectCircularDependency. generalize (DfsState ∅ ∅ []).
  induction order as [|node order IH]; intros st; simpl; [done|].
  destruct (getb (visited st) node); [apply IH|].
  intros Hf. rewrite (dfs_le fuel fuel') by (done || by destruct (dfs dependencies fuel node st)).
  destruct (dfs dependencies fuel node st) as [[[[] ?] ?]|]; try done. by apply IH.
Qed.
End DfsFuel.

(** ** What [Provide] rules out *)

Section Wrapped.
Context {T : Type}.
Implicit Types s : Weave T.

Lemma registered_wrapped s : registered s → wrapped s.
Proof.
  induction 1 as [|c s _ IH|fn s _ IH|zero name b s _ IH].
  - by intros p e b0 Hp.
  - exact IH.
  - exact IH.
  - intros p e b0. simpl. intros [Hp|[_ Hp]]%lookup_app_Some; [by apply (IH p e b0)|].
    destruct (p - length (objs s)); simplify_eq/=. intros [= <-]. by eexists.
Qed.

Lemma frame_wrapped s s' : frame s s' → wrapped s → wrapped s'.
Proof.
  intros (_ & _ & _ & _ & Hlen & _ & Hobj) Hw p e' b Hp Hb.
  destruct (lookup_lt_is_Some_2 (objs s) p) as [e He].
  { rewrite <-Hlen. by eapply lookup_lt_Some. }
  destruct (Hobj p e He) as (e'' & ? & _ & Hbe). simplify_eq.
  apply (Hw p e b He). congruence.
Qed.

Lemma build_wrapped fuel name p s err s' :
  wrapped s → build fuel name p s ≠ Done (Some err) s'.
Proof.
  intros Hw. destruct fuel as [|fuel]; simpl; [done|].
  destruct (objs s !! p) as [e|] eqn:He; [|done].
  destruct (built e); [done|]. destruct (builder e) as [b|] eqn:Hb; [|done].
  destruct (Hw p e b He Hb) as [b' ->].
  match goal with |- context [run ?r ?t ?s0] => destruct (run r t s0) as [inst s2| |] eqn:Hr end;
    simpl; try done.
  destruct inst; try done.
  - by apply run_wrap_not_Nil in Hr.
  - by case_match.
Qed.

(** Through [Provide] the branch [instance == nil] of [build] is dead: no
    [Build] of such a container returns an error.  (A typed factory that
    returns nil makes it panic in [reflect] instead.) *)
Lemma Build_registered_no_error fuel order s err s' :
  registered s → Build fuel order s ≠ Done (Some err) s'.
Proof.
  intros Hw%registered_wrapped HB.
  unfold Build in HB. destruct (isBuilt s); [done|].
  destruct (build_all fuel order s) as [[err'|] s1| |] eqn:Hall; simpl in HB; try done.
  - simplify_eq.
    apply build_all_error in Hall as (pre & name & rest & s1 & p & -> & Hpre & Hp & Hbuild).
    eapply build_wrapped; [|done]. eapply frame_wrapped; [|done].
    apply steps_frame, (build_all_steps fuel pre). by rewrite Hpre.
  - by destruct (run_ready _ _ _ _) as [[] ?| |].
Qed.
End Wrapped.

(** ** Scenarios of the test suite *)

(** Two lists over the same two names. *)
Lemma perm_two (a b : string) (l : list string) :
  l ≡ₚ [a; b] → l = [a; b] ∨ l = [b; a].
Proof. intros H. symmetry in H. by apply Permutation_length_2_inv in H. Qed.

Section Scenarios.
Context {T : Type}.
Implicit Types s : Weave T.

(** The cycle A -> B -> A with the least fuel. *)
Lemma two_cycle_least_fuel c zA zB vA vB order o roots :
  order ≡ₚ ["A"; "B"] → order1 o ≡ₚ ["A"; "B"] → order2 o ≡ₚ ["A"; "B"] →
  order3 o ≡ₚ ["A"; "B"] → roots ≡ₚ ["A"; "B"] →
  ∃ s' cycle,
    Build 2 order (two_cycle c zA zB vA vB) = Done None s' ∧
    heap s' = [vA [1]; vB [0]] ∧
    HasCircularDependency 3 o roots s' = Some (true, cycle) ∧
    "A" ∈ cycle ∧ "B" ∈ cycle.
Proof.
  destruct o as [o1 o2 o3]; simpl.
  intros [-> | ->]%perm_two [-> | ->]%perm_two [-> | ->]%perm_two
         [-> | ->]%perm_two [-> | ->]%perm_two.
  all: match goal with
       | |- ∃ s' cycle, ?b = _ ∧ _ =>
           let r := eval vm_compute in b in
           match r with
           | Done None ?s0 => exists s0
           end
       end.
  all: match goal with
       | |- ∃ cycle, _ ∧ _ ∧ ?h = _ ∧ _ =>
           let r := eval vm_compute in h in
           match r with
           | Some (true, ?cyc) => exists cyc
           end
       end.
  all: split_and!; [vm_compute; reflexivity | reflexivity | vm_compute; reflexivity
                   | set_solver | set_solver ].
Qed.

(** C1. For the cycle A -> B -> A, whatever the structs the two factories
    return and in whichever order Go walks the maps, [Build] returns
    success, with any fuel that allows a nesting depth of two: the nested
    request for the entry under construction got its output slot, so that
    each struct was built from the other's slot.  Afterwards
    [HasCircularDependency] reports a cycle whose path contains A and B. *)
Theorem cycle_tolerance c zA zB vA vB fuel order fuel' o roots :
  2 ≤ fuel → 3 ≤ fuel' →
  order ≡ₚ ["A"; "B"] → order1 o ≡ₚ ["A"; "B"] → order2 o ≡ₚ ["A"; "B"] →
  order3 o ≡ₚ ["A"; "B"] → roots ≡ₚ ["A"; "B"] →
  ∃ s' cycle,
    Build fuel order (two_cycle c zA zB vA vB) = Done None s' ∧
    heap s' = [vA [1]; vB [0]] ∧
    HasCircularDependency fuel' o roots s' = Some (true, cycle) ∧
    "A" ∈ cycle ∧ "B" ∈ cycle.
Proof.
  intros Hfuel Hfuel' H0 H1 H2 H3 H4.
  destruct (two_cycle_least_fuel c zA zB vA vB order o roots H0 H1 H2 H3 H4)
    as (s' & cycle & HB & Hheap & Hcyc & HA & HBc).
  exists s', cycle. split_and!; try done.
  - rewrite (Build_le 2 fuel) by (done || by rewrite HB). done.
  - unfold HasCircularDependency in *.
    rewrite (detect_le _ 3 fuel') by (done || by rewrite Hcyc). done.
Qed.

End Scenarios.

(** The witness container: the two services of the test, [ServiceA{Name}]
    and [ServiceB{Name, ServiceA}]. *)
Lemma cycle_tolerance_witness :
  ∃ s' cycle,
    Build 2 ["A"; "B"]
      (two_cycle (T:=string) (Some "test") [FStr ""] [FStr ""; FRef None]
         (λ _, [FStr "ServiceA"])
         (λ got, [FStr "ServiceB"; FRef (head got)])) = Done None s' ∧
    heap s' = [[FStr "ServiceA"]; [FStr "ServiceB"; FRef (Some 0)]] ∧
    HasCircularDependency 3 (Orders ["A"; "B"] ["A"; "B"] ["A"; "B"]) ["A"; "B"] s'
      = Some (true, cycle) ∧
    "A" ∈ cycle ∧ "B" ∈ cycle.
Proof.
  apply (cycle_tolerance (T:=string) (Some "test") [FStr ""] [FStr ""; FRef None]
           (λ _, [FStr "ServiceA"]) (λ got, [FStr "ServiceB"; FRef (head got)])
           2 ["A"; "B"] 3 (Orders ["A"; "B"] ["A"; "B"] ["A"; "B"]) ["A"; "B"]);
    (lia || reflexivity).
Defined.

(** C3, on the container whose only cycle is A -> B -> C -> A.  The
    enumeration meets the cycle once from each root, each time closed by the
    node it started from: the three sequences are rotations of one cycle.
    [normalizeCycle] does bring an open sequence to the form the test
    expects, but it is given the closed one and rotates it with the repeated
    node included, so the three normal forms differ and the cycle is
    reported three times, twice as a sequence that is not a path of the
    graph. *)
Theorem one_cycle_reported_thrice :
  let o := Orders ["A"; "B"; "C"] ["A"; "B"; "C"] ["A"; "B"; "C"] in
  ∃ s',
    Build 3 ["A"; "B"; "C"] (three_cycle (T:=unit)) = Done None s' ∧
    Dependencies (GetDependencyGraph o s')
      = list_to_map [("A", ["B"]); ("B", ["C"]); ("C", ["A"])] ∧
    all_roots (Dependencies (GetDependencyGraph o s')) 4 ["A"; "B"; "C"] ∅ []
      = Some [["A"; "B"; "C"; "A"]; ["B"; "C"; "A"; "B"]; ["C"; "A"; "B"; "C"]] ∧
    rotate 1 ["A"; "B"; "C"] = ["B"; "C"; "A"] ∧
    rotate 2 ["A"; "B"; "C"] = ["C"; "A"; "B"] ∧
    normalizeCycle ["B"; "C"; "A"] = ["A"; "B"; "C"] ∧
    normalizeCycle ["B"; "C"; "A"; "B"] = ["A"; "B"; "B"; "C"] ∧
    GetAllCircularDependencies 4 o ["A"; "B"; "C"] s'
      = Some [["A"; "B"; "C"; "A"]; ["A"; "B"; "B"; "C"]; ["A"; "B"; "C"; "C"]].
Proof.
  intros o.
  exists_final.
  split_and!; vm_compute; reflexivity.
Qed.

(** The same on the container of the test: the two cycles come out as
    five entries, the cycle of B and D both as B, D, B and as B, D, D. *)
Lemma two_cycles_reported_five :
  let names := ["A"; "B"; "C"; "D"] in
  ∃ s',
    Build 4 names (two_cycles (T:=unit)) = Done None s' ∧
    GetAllCircularDependencies 5 (Orders names names names) names s'
      = Some [["A"; "B"; "C"; "A"]; ["B"; "D"; "B"]; ["A"; "B"; "B"; "C"];
              ["A"; "B"; "C"; "C"]; ["B"; "D"; "D"]].
Proof. intros names. exists_final. split; vm_compute; reflexivity. Qed.

(** C4, on a container whose only factory returns nil.  [build] returns
    "build failed" from the branch that has no [s.getServiceFunc =
    originalFunc]: the resolver that was the passive one before [Build] is,
    after it, the closure recording the edges of the failed entry.  A
    [GetService] from outside then records an edge and runs the factory
    again. *)
Theorem failed_Build_leaves_resolver :
  ∃ s',
    Build 1 ["A"] (one_failing (T:=unit)) = Done (Some (BuildFailed "A")) s' ∧
    getServiceFunc (one_failing (T:=unit)) = Passive ∧
    getServiceFunc s' = Recording 0 ∧
    ∃ s'', GetService 1 "A" s' = Done (inr (BuildFailed "A")) s'' ∧
      log s'' = log s' ++ [EvCall "A"; EvReturn "A" Nil] ∧
      (dependsOn <$> objs s') = [[]] ∧ (dependsOn <$> objs s'') = [["A"]].
Proof.
  exists_final.
  split_and!; try (vm_compute; reflexivity).
  exists_final.
  split_and!; vm_compute; reflexivity.
Qed.

(** A typed factory that returns nil: [instance == nil] is false for the
    interface that holds the nil pointer, and the copy panics.  The entry
    stays marked built and the resolver stays the recording one. *)
Lemma typed_nil_panics :
  ∃ s', Build 1 ["A"] (typed_nil (T:=unit)) = Panicked PanicReflect s' ∧
        built <$> objs s' = [true] ∧ getServiceFunc s' = Recording 0.
Proof. exists_final. split_and!; vm_compute; reflexivity. Qed.

(** C5 fails as stated: A is built and populated when B fails, and stays
    so; [GetService] returns it. *)
Lemma partial_build_observable :
  ¬ atomic_failure 1 ["A"; "B"] (partly_failing (T:=unit)).
Proof.
  intros H.
  assert (∃ s', Build 1 ["A"; "B"] (partly_failing (T:=unit))
                = Done (Some (BuildFailed "B")) s' ∧ observable_built s' "A")
    as (s' & HB & Hobs); [|by eapply H].
  exists_final. split; [vm_compute; reflexivity|].
  exists 0, 0, [FStr "ServiceA"], 0. exists_final.
  split_and!; try (vm_compute; reflexivity). simpl. set_solver.
Qed.

(** C8 fails as stated: the factory of A is told "service not found",
    returns its struct all the same, and [Build] succeeds. *)
Lemma not_found_does_not_fail :
  ¬ not_found_fails 1 ["A"] (asking_missing (T:=unit)).
Proof.
  intros H.
  destruct (H "A" 0 (Entry 0 (Some ask_missing) [] false) ask_missing "missing"
              (λ _, Ret (Ptr [FStr "ServiceA"]))) as (err & s' & HB);
    try (vm_compute; reflexivity).
  vm_compute in HB. discriminate.
Qed.

(** [TestDI_BuildTwice]. *)
Lemma Build_idempotent_witness :
  ∃ s,
    Build 1 ["serviceA"]
      (Provide (T:=unit) [FStr ""] "serviceA" (λ _, Ret (Some [FStr "ServiceA"])) New)
      = Done None s ∧
    Build 1 ["serviceA"] s = Done None s.
Proof.
  exists_final. split; [vm_compute; reflexivity|].
  apply (Build_idempotent 1 ["serviceA"]
           (Provide (T:=unit) [FStr ""] "serviceA" (λ _, Ret (Some [FStr "ServiceA"])) New)).
  right. vm_compute; reflexivity.
Defined.

(** A succeeds, B fails: [Build] stops there. *)
Lemma Build_failure_witness :
  ∃ s1,
    build_all 1 ["A"] (partly_failing (T:=unit)) = Done None s1 ∧
    ∃ s',
      build 1 "B" 1 s1 = Done (Some (BuildFailed "B")) s' ∧
      Build 1 ["A"; "B"] partly_failing = Done (Some (BuildFailed "B")) s' ∧
      isBuilt s' = false.
Proof.
  exists_final.
  match goal with
  | |- _ = Done None ?s1 ∧ _ =>
      split; [vm_compute; reflexivity|]; exists_final;
      match goal with
      | |- _ = Done _ ?s' ∧ _ =>
          split; [vm_compute; reflexivity|];
          destruct (Build_failure 1 ["A"] "B" [] (partly_failing (T:=unit)) s1 1
                      (BuildFailed "B") s') as (HB & Hflag & _);
          [vm_compute; reflexivity ..|];
          split; [exact HB | exact Hflag]
      end
  end.
Defined.

(** The same container, seen after the failed [Build]. *)
Lemma Build_failure_state_witness :
  ∃ s',
    Build 1 ["A"; "B"] (partly_failing (T:=unit)) = Done (Some (BuildFailed "B")) s' ∧
    isBuilt s' = false.
Proof.
  exists_final. split; [vm_compute; reflexivity|].
  match goal with
  | |- isBuilt ?s0 = _ =>
      apply (Build_failure_state 1 ["A"; "B"] (partly_failing (T:=unit))
               (BuildFailed "B") s0)
  end.
  vm_compute; reflexivity.
Defined.

(** ** The graph of a container *)

Global Instance str_le_total : Total str_le.
Proof. intros a b. apply String.leb_total. Qed.

Lemma occ_nil x : occ x [] = 0.
Proof. done. Qed.

Lemma occ_app x l1 l2 : occ x (l1 ++ l2) = occ x l1 + occ x l2.
Proof. unfold occ. by rewrite filter_app, length_app. Qed.

Lemma occ_singleton x y : occ x [y] = if decide (y = x) then 1 else 0.
Proof. unfold occ. rewrite filter_cons, filter_nil. by case_decide. Qed.

Lemma occ_Permutation x l1 l2 : l1 ≡ₚ l2 → occ x l1 = occ x l2.
Proof. intros H. unfold occ. by rewrite H. Qed.

Lemma occ_elem_of x l : x ∈ l ↔ 0 < occ x l.
Proof.
  induction l as [|y l IH].
  - rewrite occ_nil. split; [by intros ?%elem_of_nil|lia].
  - change (y :: l) with ([y] ++ l). rewrite occ_app, occ_singleton, elem_of_app, IH.
    rewrite list_elem_of_singleton. case_decide.
    + split; [lia|by left].
    + split; [intros [?|?]; [congruence|lia]|intros ?; right; lia].
Qed.

Lemma adj_insert (m : gmap string (list string)) k l name :
  adj (<[k := l]> m) name = if decide (k = name) then l else adj m name.
Proof. unfold adj. rewrite lookup_insert. by case_decide. Qed.

Lemma adj_alter f (m : gmap string (list string)) k name :
  f [] = [] →
  adj (alter f k m) name = if decide (k = name) then f (adj m name) else adj m name.
Proof.
  intros Hf. unfold adj. rewrite lookup_alter. case_decide; [subst|done].
  by destruct (m !! name).
Qed.

(** *** The second loop *)

Lemma add_dependents_occ svc deps (R : gmap string (list string)) N M :
  occ N (adj (foldl (add_dependent svc) R deps) M)
  = occ N (adj R M) + (if decide (svc = N) then occ M deps else 0).
Proof.
  revert R. induction deps as [|dep deps IH]; intros R; simpl.
  - rewrite occ_nil. case_decide; lia.
  - rewrite IH. unfold add_dependent. rewrite adj_insert.
    change (dep :: deps) with ([dep] ++ deps).
    rewrite (occ_app M), (occ_singleton M).
    destruct (decide (dep = M)) as [->|Hne].
    + rewrite occ_app, occ_singleton. repeat case_decide; lia.
    + repeat case_decide; lia.
Qed.

Lemma add_dependents_dom svc deps (R : gmap string (list string)) M :
  is_Some (foldl (add_dependent svc) R deps !! M) ↔ is_Some (R !! M) ∨ M ∈ deps.
Proof.
  revert R. induction deps as [|dep deps IH]; intros R; simpl.
  - rewrite elem_of_nil. tauto.
  - rewrite IH. unfold add_dependent. rewrite lookup_insert_is_Some, elem_of_cons.
    destruct (decide (dep = M)) as [->|]; [tauto|].
    split; [intros [[?|[? ?]]|?]|intros [?|[?|?]]]; auto; congruence.
Qed.

Lemma invert_occ order (D R : gmap string (list string)) N M :
  NoDup order →
  occ N (adj (invert order D R) M)
  = occ N (adj R M) + (if decide (N ∈ order) then occ M (adj D N) else 0).
Proof.
  unfold invert. revert R. induction order as [|n order IH]; intros R Hnd; cbn [foldl].
  - rewrite decide_False; [lia|by intros ?%elem_of_nil].
  - apply NoDup_cons in Hnd as [Hn Hnd]. rewrite IH by done.
    assert (occ N (adj (invert_step D R n) M)
            = occ N (adj R M) + (if decide (n = N) then occ M (adj D N) else 0)) as ->.
    { unfold invert_step, adj at 3. destruct (decide (n = N)) as [->|Hne].
      - destruct (D !! N) as [deps|]; simpl.
        + by rewrite add_dependents_occ, decide_True.
        + rewrite occ_nil. lia.
      - destruct (D !! n) as [deps|]; simpl; [|lia].
        rewrite add_dependents_occ, decide_False by done. lia. }
    destruct (decide (n = N)) as [->|Hne].
    + rewrite (decide_False (P := N ∈ order)) by done.
      rewrite decide_True by (apply elem_of_cons; by left). lia.
    + destruct (decide (N ∈ order)).
      * rewrite decide_True by (apply elem_of_cons; by right). lia.
      * rewrite decide_False; [lia|]. intros [?|?]%elem_of_cons; done.
Qed.

Lemma invert_dom order (D R : gmap string (list string)) M :
  is_Some (invert order D R !! M) →
  is_Some (R !! M) ∨ ∃ n deps, D !! n = Some deps ∧ M ∈ deps.
Proof.
  unfold invert. revert R. induction order as [|n order IH]; intros R; simpl; [by left|].
  intros [H|H]%IH; [|by right].
  unfold invert_step in H. destruct (D !! n) as [deps|] eqn:Hn; [|by left].
  apply add_dependents_dom in H as [?|?]; [by left|right; eauto].
Qed.

(** *** The third loop *)

Lemma sort_Strings_nil : sort_Strings [] = [].
Proof. done. Qed.

Lemma sort_step_Dependencies_dom g n name :
  is_Some (Dependencies (sort_step g n) !! name) ↔ is_Some (Dependencies g !! name).
Proof.
  unfold sort_step. destruct (Dependencies g !! n); [|done]. simpl.
  rewrite lookup_alter. case_decide; [subst|done]. by rewrite fmap_is_Some.
Qed.

Lemma sort_step_Dependents_dom g n name :
  is_Some (Dependents (sort_step g n) !! name) ↔ is_Some (Dependents g !! name).
Proof.
  unfold sort_step. destruct (Dependencies g !! n); [|done]. simpl.
  rewrite lookup_alter. case_decide; [subst|done]. by rewrite fmap_is_Some.
Qed.

Lemma sort_graph_Dependents_dom order g name :
  is_Some (Dependents (sort_graph order g) !! name) ↔ is_Some (Dependents g !! name).
Proof.
  unfold sort_graph. revert g. induction order as [|n order IH]; intros g; simpl; [done|].
  by rewrite IH, sort_step_Dependents_dom.
Qed.

Lemma sort_step_Permutation g n name :
  adj (Dependencies (sort_step g n)) name ≡ₚ adj (Dependencies g) name ∧
  adj (Dependents (sort_step g n)) name ≡ₚ adj (Dependents g) name.
Proof.
  unfold sort_step. destruct (Dependencies g !! n); [|done]. simpl.
  rewrite !adj_alter by done.
  case_decide; [|done]. unfold sort_Strings. by rewrite !merge_sort_Permutation.
Qed.

Lemma sort_step_keeps g n name : sorted_at g name → sorted_at (sort_step g n) name.
Proof.
  intros [H1 H2]. unfold sort_step. destruct (Dependencies g !! n) as [l0|]; [|done].
  split; intros l; simpl; rewrite lookup_alter; (case_decide; [subst|auto]);
    intros (l' & _ & ->)%fmap_Some; apply Sorted_merge_sort, _.
Qed.

Lemma sort_step_sorts g name :
  is_Some (Dependencies g !! name) → sorted_at (sort_step g name) name.
Proof.
  intros [l0 H0]. unfold sort_step. rewrite H0.
  split; intros l; simpl; rewrite lookup_alter, decide_True by done;
    intros (l' & _ & ->)%fmap_Some; apply Sorted_merge_sort, _.
Qed.

Lemma sort_graph_spec order g name :
  (is_Some (Dependencies (sort_graph order g) !! name) ↔ is_Some (Dependencies g !! name)) ∧
  adj (Dependencies (sort_graph order g)) name ≡ₚ adj (Dependencies g) name ∧
  adj (Dependents (sort_graph order g)) name ≡ₚ adj (Dependents g) name ∧
  ((name ∈ order ∧ is_Some (Dependencies g !! name)) ∨ sorted_at g name →
   sorted_at (sort_graph order g) name).
Proof.
  unfold sort_graph. revert g. induction order as [|n order IH]; intros g; simpl.
  - split_and!; try done. intros [[[]%elem_of_nil _]|?]; done.
  - destruct (IH (sort_step g n)) as (Hdom & Hp1 & Hp2 & Hs).
    destruct (sort_step_Permutation g n name) as [Hq1 Hq2].
    split_and!.
    + by rewrite Hdom, sort_step_Dependencies_dom.
    + by rewrite Hp1.
    + by rewrite Hp2.
    + intros [[[->|Hin]%elem_of_cons Hsome]|Hsorted]; apply Hs.
      * right. by apply sort_step_sorts.
      * left. split; [done|]. by apply sort_step_Dependencies_dom.
      * right. by apply sort_step_keeps.
Qed.

Section GraphFacts.
Context {T : Type}.
Implicit Types s : Weave T.

Lemma before_build_flag s : before_build s → isBuilt s = false.
Proof.
  induction 1 as [| | | | |fuel order err s s' _ _ HB]; try done.
  by apply Build_error_flag in HB.
Qed.

Lemma init_step_Dependencies s g n name :
  Dependencies (init_step s g n) !! name
  = if decide (n = name ∧ is_Some (deps_of s name)) then deps_of s name
    else Dependencies g !! name.
Proof.
  unfold init_step, deps_of.
  destruct (decide (n = name)) as [->|Hne].
  - destruct (entries s !! name) as [p|]; simpl.
    2: { rewrite decide_False; [done|]. by intros [_ [? ?]]. }
    destruct (objs s !! p) as [e|] eqn:He; simpl.
    2: { rewrite decide_False; [done|]. by intros [_ [? ?]]. }
    rewrite lookup_insert_eq. rewrite decide_True; [done|]. split; [done|by eexists].
  - rewrite decide_False by (by intros [? _]).
    destruct (entries s !! n) as [p|]; [|done].
    destruct (objs s !! p) as [e|]; [|done]. simpl. by rewrite lookup_insert_ne.
Qed.

Lemma init_graph_Dependencies order s g name :
  Dependencies (foldl (init_step s) g order) !! name
  = if decide (name ∈ order ∧ is_Some (deps_of s name)) then deps_of s name
    else Dependencies g !! name.
Proof.
  revert g. induction order as [|n order IH]; intros g; cbn [foldl].
  - rewrite decide_False; [done|]. by intros [?%elem_of_nil _].
  - rewrite IH, init_step_Dependencies.
    destruct (decide (name ∈ order ∧ _)) as [[Hin Hs]|Hn1].
    + rewrite decide_True; [done|]. split; [apply elem_of_cons; by right|done].
    + destruct (decide (n = name ∧ _)) as [[-> Hs']|Hn2].
      * rewrite decide_True; [done|]. split; [apply elem_of_cons; by left|done].
      * rewrite decide_False; [done|].
        intros [[->|Hin']%elem_of_cons Hs'']; [by destruct Hn2|by destruct Hn1].
Qed.

Lemma init_graph_Dependents_nil order s g :
  all_nil (Dependents g) → all_nil (Dependents (foldl (init_step s) g order)).
Proof.
  revert g. induction order as [|n order IH]; intros g Hg; simpl; [done|].
  apply IH. unfold init_step. destruct (entries s !! n) as [p|]; [|done].
  destruct (objs s !! p) as [e|]; [|done]. simpl.
  destruct (Dependents g !! n) eqn:Hn; [done|].
  intros name l. destruct (decide (n = name)) as [->|].
  - rewrite lookup_insert_eq. congruence.
  - rewrite lookup_insert_ne by done. apply Hg.
Qed.

Lemma invert_all_nil order (dependencies dependents : gmap string (list string)) :
  all_nil dependencies → invert order dependencies dependents = dependents.
Proof.
  intros Hnil. unfold invert. revert dependents.
  induction order as [|n order IH]; intros dependents; simpl; [done|].
  rewrite IH. unfold invert_step.
  destruct (dependencies !! n) as [deps|] eqn:Hn; [|done].
  by rewrite (Hnil _ _ Hn).
Qed.

Lemma alter_sort_all_nil k (m : gmap string (list string)) :
  all_nil m → all_nil (alter sort_Strings k m).
Proof.
  intros Hm name l. rewrite lookup_alter. case_decide; [subst|apply Hm].
  destruct (m !! name) as [l'|] eqn:Hk; simpl; [|done].
  rewrite (Hm _ _ Hk). by intros [= <-].
Qed.

Lemma sort_graph_all_nil order g :
  all_nil (Dependencies g) → all_nil (Dependents g) →
  all_nil (Dependencies (sort_graph order g)) ∧ all_nil (Dependents (sort_graph order g)).
Proof.
  unfold sort_graph. revert g.
  induction order as [|n order IH]; intros g H1 H2; simpl; [done|].
  apply IH; unfold sort_step; destruct (Dependencies g !! n); simpl;
    auto using alter_sort_all_nil.
Qed.

Lemma compact_loop_entries o (s0 : Weave T) :
  entries (foldl compact_step s0 o) = entries s0.
Proof.
  revert s0. induction o as [|n o IH]; intros s0; simpl; [done|].
  rewrite IH. unfold compact_step. by destruct (entries s0 !! n).
Qed.

Lemma compact_step_keeps s0 n name :
  deps_of s0 name = None ∨ deps_of s0 name = Some [] →
  deps_of (compact_step s0 n) name = None ∨ deps_of (compact_step s0 n) name = Some [].
Proof.
  intros H0. unfold compact_step. destruct (entries s0 !! n) as [p|] eqn:Hp; [|done].
  unfold deps_of, update_entry in *; simpl.
  destruct (entries s0 !! name) as [q|]; simpl in *; [|by left].
  rewrite list_lookup_alter. case_decide; [subst q|done].
  destruct (objs s0 !! p); simpl; eauto.
Qed.

Lemma compact_step_empties s0 name :
  deps_of (compact_step s0 name) name = None ∨ deps_of (compact_step s0 name) name = Some [].
Proof.
  unfold compact_step. destruct (entries s0 !! name) as [p|] eqn:Hp.
  - unfold deps_of, update_entry; simpl. rewrite Hp; simpl.
    rewrite list_lookup_alter, decide_True by done.
    destruct (objs s0 !! p); simpl; eauto.
  - unfold deps_of. rewrite Hp. by left.
Qed.

(** The loop of [Compact] empties [dependsOn] in every entry it visits. *)
Lemma compact_loop_deps_of o (s0 : Weave T) name :
  name ∈ o ∨ deps_of s0 name = None ∨ deps_of s0 name = Some [] →
  deps_of (foldl compact_step s0 o) name = None ∨
  deps_of (foldl compact_step s0 o) name = Some [].
Proof.
  revert s0. induction o as [|n o IH]; intros s0; simpl.
  - intros [[]%elem_of_nil|]; done.
  - intros [[->|Hin]%elem_of_cons|H0]; apply IH; eauto.
    + right. apply compact_step_empties.
    + right. by apply compact_step_keeps.
Qed.

(** *** The invariant of the registry *)

Lemma step_wf s s' :
  step s s' → ptrs_valid s ∧ deps_closed s → ptrs_valid s' ∧ deps_closed s'.
Proof.
  intros Hstep [Hp Hd]. destruct Hstep as [r s|p b s|owner name s Hname|e s|p e v s He];
    try done.
  - split.
    + intros name q Hq. unfold update_entry; simpl. rewrite length_alter. by eapply Hp.
    + intros q e name. unfold update_entry; simpl. rewrite list_lookup_alter.
      case_decide; [subst|apply Hd].
      intros (e' & He' & ->)%fmap_Some. simpl. by eapply Hd.
  - split.
    + intros n q Hq. unfold update_entry; simpl. rewrite length_alter. by eapply Hp.
    + intros q e n. unfold update_entry; simpl. rewrite list_lookup_alter.
      case_decide; [subst|apply Hd].
      intros (e' & He' & ->)%fmap_Some. simpl.
      rewrite elem_of_app, list_elem_of_singleton. intros [?| ->]; [by eapply Hd|done].
Qed.

Lemma steps_wf s s' :
  rtc step s s' → ptrs_valid s ∧ deps_closed s → ptrs_valid s' ∧ deps_closed s'.
Proof. induction 1; eauto using step_wf. Qed.

Lemma assign_wf name placeholder b s :
  ptrs_valid s ∧ deps_closed s →
  ptrs_valid (assign name placeholder b s) ∧ deps_closed (assign name placeholder b s).
Proof.
  intros [Hp Hd]. unfold assign, ptrs_valid, deps_closed; simpl. split.
  - intros n q. rewrite lookup_insert, length_app; simpl. case_decide.
    + intros [= <-]. lia.
    + intros ?%Hp. lia.
  - intros q e n Hq Hn. rewrite lookup_insert_is_Some.
    destruct (decide (name = n)); [by left|right; split; [done|]].
    apply lookup_app_Some in Hq as [Hq|[_ Hq]]; [by eapply Hd|].
    destruct (q - length (objs s)); simplify_eq/=. by apply elem_of_nil in Hn.
Qed.

Lemma compact_loop_wf o (s0 : Weave T) :
  ptrs_valid s0 ∧ deps_closed s0 →
  ptrs_valid (foldl compact_step s0 o) ∧ deps_closed (foldl compact_step s0 o).
Proof.
  revert s0. induction o as [|n o IH]; intros s0 [Hp Hd]; simpl; [done|].
  apply IH. unfold compact_step. destruct (entries s0 !! n) as [p|]; [|done]. split.
  - intros n' q Hq. unfold update_entry; simpl. rewrite length_alter. by eapply Hp.
  - intros q e n'. unfold update_entry; simpl. rewrite list_lookup_alter.
    case_decide; [subst|apply Hd].
    intros (e' & He' & ->)%fmap_Some. simpl. by intros ?%elem_of_nil.
Qed.

Lemma reachable_wf s : reachable s → ptrs_valid s ∧ deps_closed s.
Proof.
  induction 1 as [|c s _ IH|fn s _ IH|name ph b s _ IH|zero name b s _ IH
                 |fuel order s s' _ IH HB|fuel name s s' _ IH HG|order s s' _ IH HC].
  - split; [intros ??; simpl; by rewrite lookup_empty|intros ???; simpl; by rewrite lookup_nil].
  - done.
  - done.
  - by apply assign_wf.
  - by apply assign_wf.
  - apply Build_cases in HB as [Hs|(s1 & Hall & Hs)]; [by eapply steps_wf|].
    eapply steps_wf; [done|].
    change (ptrs_valid s1 ∧ deps_closed s1).
    eapply steps_wf; [|done]. apply (build_all_steps fuel order). by rewrite Hall.
  - eapply steps_wf; [|done]. by eapply (call_steps _ (build_steps fuel)).
  - unfold Compact in HC. destruct (isBuilt s); simpl in HC; simplify_eq; [|done].
    by apply compact_loop_wf.
Qed.

(** *** The first loop *)

Lemma init_graph_Dependents_dom order s g name :
  (∀ n, is_Some (Dependents g !! n) → is_Some (Dependencies g !! n)) →
  is_Some (Dependents (foldl (init_step s) g order) !! name) →
  is_Some (Dependencies (foldl (init_step s) g order) !! name).
Proof.
  revert g. induction order as [|n order IH]; intros g Hg; simpl; [apply Hg|].
  apply IH. intros m. unfold init_step.
  destruct (entries s !! n) as [p|]; [|apply Hg].
  destruct (objs s !! p) as [e|]; [|apply Hg]. simpl.
  rewrite lookup_insert_is_Some.
  destruct (decide (n = m)) as [->|]; [by left|]. intros Hm. right. split; [done|].
  apply Hg. destruct (Dependents g !! n); [done|].
  by rewrite lookup_insert_ne in Hm.
Qed.

(** C6. In every state of a container, in whichever order Go walks the
    maps, the two maps of the graph are transposes of each other, duplicate
    edges included: M occurs in [Dependencies[N]] as many times as N occurs
    in [Dependents[M]] (a missing key reading as the empty list), so that M
    is in the one exactly when N is in the other; and every list of both
    maps is sorted. *)
Theorem graph_transpose_sorted s o :
  reachable s → valid_orders o s →
  let g := GetDependencyGraph o s in
  (∀ N M, occ M (adj (Dependencies g) N) = occ N (adj (Dependents g) M)) ∧
  (∀ N M, M ∈ adj (Dependencies g) N ↔ N ∈ adj (Dependents g) M) ∧
  (∀ N l, Dependencies g !! N = Some l → Sorted str_le l) ∧
  (∀ M l, Dependents g !! M = Some l → Sorted str_le l).
Proof.
  intros [Hp Hd]%reachable_wf (Ho1 & Ho2 & Ho3). unfold GetDependencyGraph.
  set (g0 := init_graph (order1 o) s) in *.
  set (D := Dependencies g0) in *. set (R0 := Dependents g0).
  set (R := invert (order2 o) D R0). set (g1 := MkGraph D R). simpl.
  assert (∀ name, D !! name = deps_of s name) as HD.
  { intros name. unfold D, g0, init_graph. rewrite init_graph_Dependencies. simpl.
    rewrite lookup_empty. case_decide as Hc; [done|].
    destruct (deps_of s name) eqn:Hdeps; [|done]. destruct Hc. split; [|done].
    apply Ho1. unfold deps_of in Hdeps. by destruct (entries s !! name). }
  assert (∀ M, adj R0 M = []) as HR0.
  { intros M. unfold adj. destruct (R0 !! M) as [l|] eqn:HM; [|done]. simpl.
    eapply (init_graph_Dependents_nil (order1 o) s (MkGraph ∅ ∅)); [|exact HM].
    intros ??. simpl. by rewrite lookup_empty. }
  assert (∀ N M, occ M (adj (Dependencies (sort_graph (order3 o) g1)) N)
                 = occ N (adj (Dependents (sort_graph (order3 o) g1)) M)) as Hocc.
  { intros N M.
    destruct (sort_graph_spec (order3 o) g1 N) as (_ & HpN & _ & _).
    destruct (sort_graph_spec (order3 o) g1 M) as (_ & _ & HpM & _).
    rewrite (occ_Permutation _ _ _ HpN), (occ_Permutation _ _ _ HpM). simpl.
    unfold R. rewrite invert_occ by apply Ho2. rewrite HR0, occ_nil.
    case_decide as Hin; [done|]. simpl.
    unfold adj. destruct (D !! N) eqn:HN; [|done]. destruct Hin. apply Ho2. by eexists. }
  assert (∀ M, is_Some (R !! M) → is_Some (D !! M)) as Hdom.
  { intros M [HM|(n & deps & Hn & HM)]%invert_dom.
    - apply (init_graph_Dependents_dom (order1 o) s (MkGraph ∅ ∅)); [|done].
      intros n. simpl. rewrite lookup_empty. by intros [??].
    - rewrite HD in Hn. rewrite HD. unfold deps_of in *.
      destruct (entries s !! n) as [p|]; [|done].
      destruct (objs s !! p) as [e|] eqn:He; [|done]. simplify_eq.
      destruct (Hd p e M He HM) as [q Hq]. rewrite Hq.
      destruct (lookup_lt_is_Some_2 (objs s) q) as [e' ->]; [by eapply Hp|done]. }
  split_and!.
  - exact Hocc.
  - intros N M. by rewrite !occ_elem_of, Hocc.
  - intros N l HN.
    destruct (sort_graph_spec (order3 o) g1 N) as (HdomN & _ & _ & Hs).
    assert (is_Some (D !! N)) by (apply HdomN; by eexists).
    destruct Hs as [Hs _]; [left; split; [by apply Ho3|done]|]. by eapply Hs.
  - intros M l HM.
    destruct (sort_graph_spec (order3 o) g1 M) as (_ & _ & _ & Hs).
    assert (is_Some (D !! M)).
    { apply Hdom. apply (sort_graph_Dependents_dom (order3 o) g1). by eexists. }
    destruct Hs as [_ Hs]; [left; split; [by apply Ho3|done]|]. by eapply Hs.
Qed.

(** C9. In a state no successful [Build] has been through (registrations,
    and [Build]s that returned a failure) [Compact] and [Extract] panic.
    After a successful [Build] and a [Compact], whose loop visits every
    entry, every adjacency list of the graph [GetDependencyGraph] returns,
    in both maps, is empty. *)
Theorem Compact_Extract_preconditions :
  (∀ s o, before_build s →
     Compact o s = Panicked compact_panic s ∧
     Extract o s = Panicked extract_panic s) ∧
  (∀ fuel order s s1 o s2 og,
     Build fuel order s = Done None s1 →
     (∀ name, is_Some (entries s1 !! name) → name ∈ o) →
     Compact o s1 = Done tt s2 →
     all_nil (Dependencies (GetDependencyGraph og s2)) ∧
     all_nil (Dependents (GetDependencyGraph og s2))).
Proof.
  split.
  - intros s o Hb%before_build_flag. unfold Compact, Extract. by rewrite Hb.
  - intros fuel order s s1 o s2 og _ Ho HC. unfold GetDependencyGraph.
    unfold Compact in HC. destruct (isBuilt s1); simpl in HC; [|done].
    injection HC as <-.
    assert (all_nil (Dependencies (init_graph (order1 og)
              (foldl compact_step (with_ready [] (with_ctx None s1)) o)))) as Hdeps.
    { intros name l. unfold init_graph. rewrite init_graph_Dependencies.
      simpl. rewrite lookup_empty. case_decide as Hd; [|done].
      destruct Hd as [_ [l' Hl']].
      assert (name ∈ o) as Hin.
      { apply Ho. unfold deps_of in Hl'. rewrite compact_loop_entries in Hl'. simpl in Hl'.
        by destruct (entries s1 !! name). }
      destruct (compact_loop_deps_of o (with_ready [] (with_ctx None s1)) name);
        [by left|congruence..]. }
    rewrite invert_all_nil by done.
    apply sort_graph_all_nil; simpl; [done|].
    apply init_graph_Dependents_nil. intros ??. simpl. by rewrite lookup_empty.
Qed.

End GraphFacts.

(** ** The cycle [detectCircularDependency] reports *)

Section DetectFacts.
Variable dependencies : gmap string (list string).

Lemma walk_back_spec rpath node :
  node ∈ rpath →
  last (walk_back rpath node) = Some node ∧
  (∀ n, n ∈ walk_back rpath node → n ∈ rpath).
Proof.
  induction rpath as [|x rpath IH]; [by intros ?%elem_of_nil|].
  intros Hin. simpl. destruct (decide (x = node)) as [->|Hne].
  - split; [done|]. intros n ->%list_elem_of_singleton. by left.
  - apply elem_of_cons in Hin as [?|Hin]; [done|].
    destruct (IH Hin) as [Hlast Hsub]. split.
    + destruct (walk_back rpath node); [done|]. by rewrite last_cons, Hlast.
    + intros n [->|?]%elem_of_cons; [by left|right; auto].
Qed.

Lemma build_cycle_closed st node :
  dfs_inv dependencies st → getb (visiting st) node = true →
  closed_cycle dependencies (build_cycle (path st) node).
Proof.
  intros [Hv Hp] Hnode. unfold build_cycle.
  assert (node ∈ reverse (path st)) as Hin by (by apply elem_of_reverse, Hv).
  destruct (walk_back_spec _ _ Hin) as [Hlast Hsub].
  destruct (walk_back (reverse (path st)) node) as [|x l] eqn:Hw; [done|].
  split_and!.
  - simpl. lia.
  - exists node. split; [done|]. by rewrite last_cons, Hlast.
  - intros n [->|Hn]%elem_of_cons.
    + by apply Hp, Hv.
    + by apply Hp, elem_of_reverse, Hsub.
Qed.

Lemma getb_insert (m : gmap string bool) k b n :
  getb (<[k := b]> m) n = if decide (k = n) then b else getb m n.
Proof. unfold getb. rewrite lookup_insert. by case_decide. Qed.

Lemma dfs_each_spec dfs_rec deps st r :
  (∀ node st r, dfs_inv dependencies st → node_of dependencies node → dfs_rec node st = Some r → dfs_post dependencies st r) →
  (∀ dep, dep ∈ deps → node_of dependencies dep) →
  dfs_inv dependencies st → dfs_each dfs_rec deps st = Some r → dfs_post dependencies st r.
Proof.
  intros Hrec. revert st. induction deps as [|dep deps IH]; intros st Hdeps Hinv; simpl.
  - by intros [= <-].
  - destruct (dfs_rec dep st) as [[[[] cycle] st1]|] eqn:Hdep; [| |done].
    + intros [= <-]. apply (Hrec dep st _ Hinv) in Hdep; [done|]. apply Hdeps. by left.
    + apply (Hrec dep st _ Hinv) in Hdep as [Hinv1 Hpath1]; [|apply Hdeps; by left].
      intros Hr. apply IH in Hr; [|intros; apply Hdeps; by right|done].
      destruct r as [[[] ?] ?]; [done|]. destruct Hr. split; [done|congruence].
Qed.

Lemma dfs_spec fuel node st r :
  dfs_inv dependencies st → node_of dependencies node → dfs dependencies fuel node st = Some r → dfs_post dependencies st r.
Proof.
  revert node st r. induction fuel as [|fuel IH]; intros node st r Hinv Hnode; simpl; [done|].
  destruct (getb (visiting st) node) eqn:Hvg.
  { intros [= <-]. by apply build_cycle_closed. }
  destruct (getb (visited st) node) eqn:Hvd.
  { by intros [= <-]. }
  set (st1 := DfsState (visited st) (<[node:=true]> (visiting st)) (path st ++ [node])).
  assert (dfs_inv dependencies st1) as Hinv1.
  { destruct Hinv as [Hv Hp]. split; simpl.
    - intros n. rewrite getb_insert, elem_of_app, list_elem_of_singleton.
      case_decide; [by right|]. intros ?%Hv. by left.
    - intros n [?| ->%list_elem_of_singleton]%elem_of_app; auto. }
  destruct (dfs_each _ _ st1) as [[[[] cycle] st2]|] eqn:Heach; [| |done].
  - intros [= <-].
    eapply (dfs_each_spec _ _ st1) in Heach; [done|exact IH| |done].
    intros dep Hdep. right. by exists node.
  - intros [= <-].
    eapply (dfs_each_spec _ _ st1) in Heach; [|exact IH| |done].
    2: { intros dep Hdep. right. by exists node. }
    destruct Heach as [[Hv2 Hp2] Hpath2]. simpl in Hpath2.
    assert (take (length (path st2) - 1) (path st2) = path st) as Htake.
    { rewrite Hpath2, length_app. simpl.
      replace (length (path st) + 1 - 1) with (length (path st)) by lia.
      by rewrite take_app_length. }
    simpl. rewrite Htake. split; [|done]. split; simpl.
    + intros n. rewrite getb_insert. case_decide; [done|].
      intros Hn%Hv2. rewrite Hpath2 in Hn.
      apply elem_of_app in Hn as [?| ->%list_elem_of_singleton]; done.
    + apply Hinv.
Qed.

Lemma detect_roots_spec fuel order st cycle :
  (∀ n, n ∈ order → is_Some (dependencies !! n)) →
  dfs_inv dependencies st →
  detect_roots dependencies fuel order st = Some (true, cycle) → closed_cycle dependencies cycle.
Proof.
  revert st. induction order as [|node order IH]; intros st Hkeys Hinv; simpl; [done|].
  assert (∀ n, n ∈ order → is_Some (dependencies !! n)) as Hkeys'.
  { intros n ?. apply Hkeys. by right. }
  destruct (getb (visited st) node); [by apply IH|].
  destruct (dfs dependencies fuel node st) as [[[[] c] st1]|] eqn:Hdfs; [| |done].
  - intros [= <-]. apply dfs_spec in Hdfs; [done..|]. left. apply Hkeys. by left.
  - apply dfs_spec in Hdfs as [Hinv1 _]; [|done|left; apply Hkeys; by left].
    by apply IH.
Qed.

(** C10. Whenever [detectCircularDependency] reports a cycle, over any
    map and for any order of its keys, the path has at least two elements,
    begins and ends with the same name, and is made of names of the graph:
    keys, or dependencies that keys record. *)
Theorem reported_cycle_shape fuel order cycle :
  (∀ n, n ∈ order → is_Some (dependencies !! n)) →
  detectCircularDependency dependencies fuel order = Some (true, cycle) →
  cycle ≠ [] ∧ 2 ≤ length cycle ∧
  (∃ node, head cycle = Some node ∧ last cycle = Some node) ∧
  (∀ n, n ∈ cycle → is_Some (dependencies !! n) ∨ ∃ m, n ∈ adj dependencies m).
Proof.
  intros Hkeys Hdet. unfold detectCircularDependency in Hdet.
  apply detect_roots_spec in Hdet as (Hlen & Hends & Hnodes); [|done|].
  - split_and!; try done. intros ->. simpl in Hlen. lia.
  - split; simpl; [intros n|intros n ?%elem_of_nil; done].
    unfold getb. by rewrite lookup_empty.
Qed.

End DetectFacts.

(** ** What a successful build leaves in the output slots *)

Lemma returned_snoc name l ev :
  returned name (l ++ [ev]) =
    match ev with
    | EvReturn n r => if decide (n = name) then Some r else returned name l
    | _ => returned name l
    end.
Proof.
  induction l as [|ev' l IH]; simpl.
  - by destruct ev.
  - rewrite IH. destruct ev as [| n r |]; try done. by case_decide.
Qed.

Section Populated.
Context {T : Type}.
Implicit Types s : Weave T.

Lemma keeps_built_refl s : keeps_built s s.
Proof. intros q e ??. eauto. Qed.

Lemma keeps_built_trans s1 s2 s3 : keeps_built s1 s2 → keeps_built s2 s3 → keeps_built s1 s3.
Proof. intros H1 H2 q e He Hb. destruct (H1 q e He Hb) as (e' & ? & ?). eauto. Qed.

Lemma frame_separated s s' : frame s s' → separated s → separated s'.
Proof.
  intros (He & _ & _ & _ & Hlo & Hlh & Hobj) [H1 H2 H3 H4].
  assert (∀ p e', objs s' !! p = Some e' →
                  ∃ e, objs s !! p = Some e ∧ instance e = instance e') as Hback.
  { intros p e' Hp. destruct (lookup_lt_is_Some_2 (objs s) p) as [e Hpe].
    { rewrite <-Hlo. by eapply lookup_lt_Some. }
    destruct (Hobj p e Hpe) as (e'' & ? & ? & _). exists e. split; [done|congruence]. }
  split.
  - intros name p. rewrite He, Hlo. apply H1.
  - intros n m p. rewrite He. apply H2.
  - intros p q e e' (e0 & ? & ?)%Hback (e0' & ? & ?)%Hback ?. eapply H3; [done..|congruence].
  - intros p e (e0 & ? & <-)%Hback. rewrite Hlh. by eapply H4.
Qed.

Lemma registered_start s :
  registered s →
  separated s ∧ isBuilt s = false ∧ (∀ p e, objs s !! p = Some e → built e = false).
Proof.
  induction 1 as [|c s _ IH|fn s _ IH|zero name b s _ (Hsep & _ & Hun)].
  - split_and!; [split|done|]; simpl; intros *; rewrite ?lookup_empty, ?lookup_nil; done.
  - destruct IH as ([] & ? & ?). by split_and!; [split|..].
  - destruct IH as ([] & ? & ?). by split_and!; [split|..].
  - destruct Hsep as [H1 H2 H3 H4]. split_and!; [split|done|]; simpl.
    + intros n p. rewrite lookup_insert, length_app; simpl. case_decide.
      * intros [= <-]. lia.
      * intros ?%H1. lia.
    + intros n m p. rewrite !lookup_insert. repeat case_decide; try congruence.
      * intros [= <-] ?%H1. lia.
      * intros ?%H1 [= <-]. lia.
      * apply H2.
    + intros p q e e' [Hp|[Hpl Hp]]%lookup_app_Some [Hq|[Hql Hq]]%lookup_app_Some.
      * by eapply H3.
      * destruct (q - length (objs s)); simplify_eq/=. intros ?. apply H4 in Hp. lia.
      * destruct (p - length (objs s)); simplify_eq/=. intros ?. apply H4 in Hq. lia.
      * destruct (p - length (objs s)) eqn:?, (q - length (objs s)) eqn:?; simplify_eq/=.
        intros _. lia.
    + intros p e [Hp|[_ Hp]]%lookup_app_Some; rewrite length_app; simpl.
      * apply H4 in Hp. lia.
      * destruct (p - length (objs s)); simplify_eq/=. lia.
    + intros p e [Hp|[_ Hp]]%lookup_app_Some; [by eapply Hun|].
      destruct (p - length (objs s)); by simplify_eq/=.
Qed.

Lemma bp_update_entry S s p (f : entry T → entry T) :
  (∀ e, instance (f e) = instance e ∧ (built (f e) = true → built e = true)) →
  built_populated S s → built_populated S (update_entry p f s).
Proof.
  intros Hf HI name q e' Hq. unfold update_entry; simpl. rewrite list_lookup_alter.
  case_decide; [subst q|by apply HI].
  intros (e & He & ->)%fmap_Some Hb. destruct (Hf e) as [Hi Hbe].
  destruct (HI name p e Hq He (Hbe Hb)) as [?|(v & ? & ?)]; [by left|right].
  exists v. split; [done|]. simpl. by rewrite Hi.
Qed.

Lemma bp_emit S s ev :
  (∀ n r, ev = EvReturn n r → n ∈ S) →
  built_populated S s → built_populated S (emit ev s).
Proof.
  intros Hev HI name q e Hq He Hb.
  destruct (HI name q e Hq He Hb) as [?|(v & Hr & Hh)]; [by left|].
  destruct (decide (name ∈ S)) as [?|Hnot]; [by left|right].
  exists v. split; [|done]. simpl. rewrite returned_snoc.
  destruct ev as [|n r|]; try done. case_decide; [subst|done].
  destruct Hnot. by eapply Hev.
Qed.

Lemma bp_mono (S S' : gset string) s :
  S ⊆ S' → built_populated S s → built_populated S' s.
Proof. intros HS HI name q e Hq He Hb. destruct (HI name q e Hq He Hb); [left; set_solver|by right]. Qed.

Lemma keeps_built_update_entry s p (f : entry T → entry T) :
  (∀ e, built e = true → built (f e) = true) →
  keeps_built s (update_entry p f s).
Proof.
  intros Hf q e He Hb. unfold update_entry; simpl. rewrite list_lookup_alter.
  case_decide; [subst; rewrite He; simpl|]; eauto.
Qed.

Section Rec.
Variable rec : string → eptr → Weave T → res (Weave T) (option error).
Hypothesis rec_steps : ∀ name p s s', final (rec name p s) = Some s' → rtc step s s'.
Hypothesis rec_ok : build_ok rec.

Lemma call_ok S name s a s' :
  separated s → built_populated S s →
  call_getServiceFunc rec name s = Done a s' →
  built_populated S s' ∧ keeps_built s s'.
Proof.
  intros Hsep HI. unfold call_getServiceFunc.
  destruct (getServiceFunc s) as [|owner].
  { repeat case_match; intros; simplify_eq; split; auto using keeps_built_refl. }
  destruct (entries s !! name) as [p|] eqn:Hp;
    [|intros; simplify_eq; split; auto using keeps_built_refl].
  set (s1 := update_entry owner (add_dependsOn name) s).
  assert (built_populated S s1) as HI1 by (by apply bp_update_entry).
  assert (keeps_built s s1) as Hk1 by (by apply keeps_built_update_entry).
  assert (separated s1) as Hsep1.
  { eapply frame_separated; [|done]. by apply update_entry_frame. }
  destruct (objs s1 !! p) as [e|]; [|done].
  destruct (built e); [by intros; simplify_eq|].
  destruct (rec name p s1) as [r s2| |] eqn:Hrec; simpl; try done.
  destruct (rec_ok S name p s1 r s2 Hsep1 HI1 Hp Hrec) as (HI2 & Hk2 & _).
  repeat case_match; intros; simplify_eq; split; eauto using keeps_built_trans.
Qed.

Lemma run_ok {A} S (t : prog A) s a s' :
  separated s → built_populated S s → run rec t s = Done a s' →
  built_populated S s' ∧ keeps_built s s'.
Proof.
  revert s. induction t as [a0|name k IH|p k IH|p]; simpl; intros s Hsep HI.
  - intros; simplify_eq. split; auto using keeps_built_refl.
  - destruct (call_getServiceFunc rec name s) as [a1 s1| |] eqn:Hcall; simpl; try done.
    destruct (call_ok S name s a1 s1 Hsep HI Hcall) as [HI1 Hk1].
    assert (separated s1) as Hsep1.
    { eapply frame_separated; [|done].
      apply steps_frame, (call_steps rec rec_steps name). by rewrite Hcall. }
    intros Hrun. destruct (IH a1 s1 Hsep1 HI1 Hrun). split; eauto using keeps_built_trans.
  - destruct (heap s !! p); [by apply IH|done].
  - done.
Qed.
End Rec.

Lemma build_build_ok fuel : build_ok (T:=T) (build fuel).
Proof.
  induction fuel as [|fuel IH]; intros S name p s r s' Hsep HI Hp; simpl; [done|].
  destruct (objs s !! p) as [e|] eqn:He; [|done].
  destruct (built e) eqn:Hbe.
  { intros; simplify_eq. split_and!; eauto using keeps_built_refl. }
  destruct (builder e) as [b|]; [|done].
  set (s0 := update_entry p (set_built true) (with_getServiceFunc (Recording p) s)).
  set (s1 := emit (EvCall name) s0).
  assert (frame s s1) as Hf1.
  { eapply frame_trans; [apply step_frame, (step_resolver (Recording p))|].
    eapply frame_trans; [apply step_frame, (step_built p true)|].
    apply step_frame, step_emit. }
  assert (separated s1) as Hsep1 by (by eapply frame_separated).
  assert (keeps_built s s1) as Hk1.
  { intros q e' Hq Hb. unfold s1, s0, update_entry; simpl.
    rewrite list_lookup_alter. case_decide; [subst; rewrite Hq; simpl|]; eauto. }
  assert (∃ e1, objs s1 !! p = Some e1 ∧ built e1 = true) as (e1 & He1 & Hbe1).
  { unfold s1, s0, update_entry; simpl. rewrite list_lookup_alter, decide_True, He by done.
    simpl. eauto. }
  assert (built_populated ({[name]} ∪ S) s1) as HI1.
  { apply bp_emit; [done|].
    intros n q e'. unfold s0, update_entry; simpl. intros Hq.
    rewrite list_lookup_alter. case_decide.
    - subst q. intros _ _. left. rewrite (sep_names s Hsep n name p Hq Hp). set_solver.
    - intros He' Hb'. destruct (HI n q e' Hq He' Hb'); [left; set_solver|by right]. }
  destruct (run (build fuel) (b (ctx s)) s1) as [inst s2| |] eqn:Hrun; simpl; try done.
  destruct (run_ok (build fuel) (build_steps fuel) IH _ _ _ _ _ Hsep1 HI1 Hrun)
    as [HI2 Hk2].
  assert (frame s1 s2) as Hf2.
  { apply steps_frame, (run_steps _ (build_steps fuel) (b (ctx s))). by rewrite Hrun. }
  assert (separated s2) as Hsep2 by (by eapply frame_separated).
  assert (entries s2 = entries s) as Hent.
  { destruct Hf1 as [E1 _], Hf2 as [E2 _]. congruence. }
  destruct (Hk2 p e1 He1 Hbe1) as (e2 & He2 & Hbe2).
  assert (∀ n q, entries s2 !! n = Some q → q ≠ p → n ≠ name) as Hother.
  { intros n q Hq Hne ->. rewrite Hent, Hp in Hq. congruence. }
  assert (∀ q e', objs s !! q = Some e' → built e' = true → q ≠ p) as Hunbuilt.
  { intros q e' Hq Hb ->. congruence. }
  destruct inst as [| |v].
  - (* the factory returned nil *)
    intros [= <- <-]. split_and!; [| |intros; discriminate].
    + intros n q e'. unfold update_entry; simpl. intros Hq.
      rewrite list_lookup_alter. case_decide; [subst q|].
      { by intros (? & ? & ->)%fmap_Some. }
      intros He' Hb'.
      destruct (bp_emit ({[name]} ∪ S) s2 (EvReturn name Nil)
                  ltac:(intros ?? [= <- _]; set_solver) HI2 n q e' Hq He' Hb')
        as [Hin|?]; [|by right].
      left. apply elem_of_union in Hin as [->%elem_of_singleton|?]; [|done].
      by destruct (Hother name q Hq).
    + intros q e' Hq Hb. destruct (Hk1 q e' Hq Hb) as (e1' & Hq1 & Hb1).
      destruct (Hk2 q e1' Hq1 Hb1) as (e2' & Hq2 & Hb2).
      unfold update_entry; simpl. rewrite list_lookup_alter, decide_False, Hq2; eauto.
      intros <-. by eapply Hunbuilt.
  - done.
  - (* the factory returned a struct *)
    simpl. rewrite He2. intros [= <- <-]. split_and!.
    + intros n q e' Hq He' Hb'. simpl in Hq, He'.
      destruct (decide (q = p)) as [->|Hne].
      * right. simplify_eq. exists v. simpl. split.
        -- rewrite returned_snoc. rewrite (sep_names s2 Hsep2 n name p Hq); [|by rewrite Hent].
           by rewrite decide_True.
        -- apply list_lookup_insert_eq. by eapply (sep_valid s2).
      * destruct (HI2 n q e' Hq He' Hb') as [Hin|(v' & Hr & Hh)].
        { apply elem_of_union in Hin as [->%elem_of_singleton|?]; [|by left].
          by destruct (Hother name q Hq). }
        right. exists v'. simpl. split.
        -- rewrite returned_snoc, decide_False; [done|].
           intros ->. by destruct (Hother n q Hq).
        -- rewrite list_lookup_insert_ne; [done|].
           intros Heq. apply Hne. symmetry. by eapply (sep_slots s2 Hsep2 p q e2 e').
    + intros q e' Hq Hb. destruct (Hk1 q e' Hq Hb) as (e1' & Hq1 & Hb1).
      by destruct (Hk2 q e1' Hq1 Hb1) as (e2' & Hq2 & Hb2); eauto.
    + intros _. simpl. eauto.
Qed.

Lemma build_all_ok fuel order s s' :
  separated s → built_populated ∅ s → build_all fuel order s = Done None s' →
  built_populated ∅ s' ∧ keeps_built s s' ∧
  ∀ name p, name ∈ order → entries s !! name = Some p →
            ∃ e, objs s' !! p = Some e ∧ built e = true.
Proof.
  revert s. induction order as [|name order IH]; intros s Hsep HI; simpl.
  - intros [= <-]. split_and!; auto using keeps_built_refl. by intros ?? ?%elem_of_nil.
  - destruct (entries s !! name) as [p|] eqn:Hp.
    + destruct (build fuel name p s) as [[err|] s1| |] eqn:Hb; simpl; try done.
      intros Hall.
      destruct (build_build_ok fuel ∅ name p s None s1 Hsep HI Hp Hb) as (HI1 & Hk1 & Hb1).
      assert (frame s s1) as Hf by (apply (build_frame fuel name p); by rewrite Hb).
      destruct (IH s1 (frame_separated _ _ Hf Hsep) HI1 Hall) as (HI2 & Hk2 & Hb2).
      split_and!; eauto using keeps_built_trans.
      intros n q [->|Hn]%elem_of_cons Hq.
      * simplify_eq. destruct Hb1 as (e1 & ? & ?); eauto.
      * apply (Hb2 n q); [done|]. by destruct Hf as [-> _].
    + intros Hall. destruct (IH s Hsep HI Hall) as (HI2 & Hk2 & Hb2).
      split_and!; try done.
      intros n q [->|Hn]%elem_of_cons Hq; [congruence|by apply (Hb2 n q)].
Qed.

Lemma run_ready_ok fuel i fns s s' :
  separated s → built_populated ∅ s → run_ready fuel i fns s = Done tt s' →
  built_populated ∅ s' ∧ keeps_built s s'.
Proof.
  revert i s. induction fns as [|fn fns IH]; intros i s Hsep HI; simpl.
  - intros [= <-]. split; auto using keeps_built_refl.
  - destruct (run (build fuel) fn (emit (EvReady i) s)) as [[] s1| |] eqn:Hrun; simpl; try done.
    intros Hrest.
    assert (separated (emit (EvReady i) s)) as Hsep0.
    { eapply frame_separated; [|done]. apply step_frame, step_emit. }
    destruct (run_ok (build fuel) (build_steps fuel) (build_build_ok fuel) ∅ fn _ _ _
                Hsep0 (bp_emit ∅ s (EvReady i) ltac:(done) HI) Hrun) as [HI1 Hk1].
    assert (frame (emit (EvReady i) s) s1) as Hf.
    { apply steps_frame, (run_steps _ (build_steps fuel) fn). by rewrite Hrun. }
    destruct (IH (S i) s1 (frame_separated _ _ Hf Hsep0) HI1 Hrest) as [HI2 Hk2].
    split; [done|]. eapply keeps_built_trans; [|done].
    eapply keeps_built_trans; [|done]. intros q e ??. simpl. eauto.
Qed.

(** The resolver answers with the pointer to the output slot of the entry
    it was asked for. *)
Lemma resolver_answers_slot fuel name s obj s' :
  call_getServiceFunc (build fuel) name s = Done (inl obj) s' →
  ∃ p e, entries s' !! name = Some p ∧ objs s' !! p = Some e ∧ instance e = obj.
Proof.
  unfold call_getServiceFunc. destruct (getServiceFunc s) as [|owner].
  { destruct (entries s !! name) as [p|] eqn:Hp; [|done].
    destruct (objs s !! p) as [e|] eqn:He; [|done]. intros [= <- <-]. eauto. }
  destruct (entries s !! name) as [p|] eqn:Hp; [|done].
  destruct (objs _ !! p) as [e|] eqn:He; [|done].
  destruct (built e).
  { intros [= <- <-]. exists p, e. by split_and!. }
  destruct (build fuel name p _) as [[err|] s1| |] eqn:Hb; simpl; try done.
  destruct (objs s1 !! p) as [e1|] eqn:He1; [|done]. intros [= <- <-].
  exists p, e1. split_and!; try done.
  assert (frame (update_entry owner (add_dependsOn name) s) s1) as [-> _]; [|done].
  apply (build_frame fuel name p). by rewrite Hb.
Qed.

(** C2.  Take any set of registrations made with [Provide] and a [Build]
    of it that returns success, in whichever order it walks the entries.
    Then every entry is built and its output slot holds, field for field,
    the struct its factory returned: what [returned] reads in the log.  The
    resolver hands out pointers to these output slots, so that every
    reference a factory captured reads, after [Build], what the factory of
    that dependency returned.  The graph need not be acyclic for this. *)
Theorem acyclic_correctness fuel order s s' :
  registered s →
  (∀ name, is_Some (entries s !! name) → name ∈ order) →
  Build fuel order s = Done None s' →
  (∀ name p e,
     entries s' !! name = Some p → objs s' !! p = Some e →
     built e = true ∧
     ∃ v, returned name (log s') = Some (Ptr v) ∧ heap s' !! instance e = Some v) ∧
  (∀ fuel' name s1 obj s2,
     call_getServiceFunc (build fuel') name s1 = Done (inl obj) s2 →
     ∃ p e, entries s2 !! name = Some p ∧ objs s2 !! p = Some e ∧ instance e = obj).
Proof.
  intros (Hsep & Hflag & Hun)%registered_start Horder HB.
  split; [|intros *; apply resolver_answers_slot].
  unfold Build in HB. rewrite Hflag in HB.
  destruct (build_all fuel order s) as [[err|] s1| |] eqn:Hall; simpl in HB; try done.
  destruct (run_ready fuel 0 (ready s1) (with_isBuilt true s1)) as [[] s2| |] eqn:Hrr;
    simpl in HB; try done.
  injection HB as <-.
  assert (built_populated ∅ s) as HI.
  { intros name p e _ He Hb. rewrite (Hun p e He) in Hb. done. }
  destruct (build_all_ok fuel order s s1 Hsep HI Hall) as (HI1 & Hk1 & Hb1).
  assert (frame s s1) as Hf1.
  { apply steps_frame, (build_all_steps fuel order). by rewrite Hall. }
  assert (separated (with_isBuilt true s1)) as Hsep1.
  { destruct (frame_separated _ _ Hf1 Hsep). by split. }
  destruct (run_ready_ok fuel 0 (ready s1) (with_isBuilt true s1) s2 Hsep1 HI1 Hrr)
    as [HI2 Hk2].
  assert (frame (with_isBuilt true s1) s2) as Hf2.
  { apply steps_frame, (run_ready_steps fuel 0 (ready s1)). by rewrite Hrr. }
  intros name p e Hp He.
  assert (entries s !! name = Some p) as Hp0.
  { destruct Hf1 as [E1 _], Hf2 as [E2 _]. simpl in E2. congruence. }
  destruct (Hb1 name p) as (e1 & He1 & Hbe1); [apply Horder; by eexists|done|].
  destruct (Hk2 p e1 He1 Hbe1) as (e2 & He2 & Hbe2).
  assert (e2 = e) as -> by congruence.
  split; [done|].
  destruct (HI2 name p e Hp He Hbe2) as [[]%elem_of_empty|?]; done.
Qed.

End Populated.

Lemma keys_of_dom {A} (m : gmap string A) (order : list string) :
  NoDup order → dom m = list_to_set order → keys_of m order.
Proof.
  intros Hnd Hdom. split; [done|]. intros name.
  by rewrite <-elem_of_dom, Hdom, elem_of_list_to_set.
Qed.

Lemma NoDup_abc : NoDup ["A"; "B"; "C"].
Proof. by apply (bool_decide_unpack _). Qed.

(** The scenario of the specification, C built first. *)
Lemma acyclic_correctness_witness :
  ∃ s',
    Build 2 ["C"; "A"; "B"] (abc (T:=unit)) = Done None s' ∧
    ∀ name p e,
      entries s' !! name = Some p → objs s' !! p = Some e →
      built e = true ∧
      ∃ v, returned name (log s') = Some (Ptr v) ∧ heap s' !! instance e = Some v.
Proof.
  exists_final. split; [vm_compute; reflexivity|].
  match goal with
  | |- ∀ name p e, entries ?s0 !! _ = _ → _ =>
      refine (proj1 (acyclic_correctness 2 ["C"; "A"; "B"] (abc (T:=unit)) s0 _ _ _))
  end.
  - unfold abc. do 3 apply reg_Provide. apply reg_New.
  - intros name. rewrite <-elem_of_dom.
    replace (dom (entries (abc (T:=unit)))) with (list_to_set (C:=gset string) ["C"; "A"; "B"])
      by (vm_compute; reflexivity).
    by rewrite elem_of_list_to_set.
  - vm_compute; reflexivity.
Defined.

(** The scenario of the specification: the edges of C and the dependents of
    A are as it gives them, and there is no cycle. *)
Lemma graph_transpose_sorted_witness :
  let o := Orders ["A"; "B"; "C"] ["A"; "B"; "C"] ["A"; "B"; "C"] in
  ∃ s',
    Build 2 ["C"; "A"; "B"] (abc (T:=unit)) = Done None s' ∧
    Dependencies (GetDependencyGraph o s') !! "C" = Some ["A"; "B"] ∧
    Dependents (GetDependencyGraph o s') !! "A" = Some ["B"; "C"] ∧
    HasCircularDependency 4 o ["A"; "B"; "C"] s' = Some (false, []) ∧
    ∀ N M, occ M (adj (Dependencies (GetDependencyGraph o s')) N)
           = occ N (adj (Dependents (GetDependencyGraph o s')) M).
Proof.
  intros o. exists_final. split_and!; try (vm_compute; reflexivity).
  match goal with
  | |- ∀ N M, occ _ (adj (Dependencies (GetDependencyGraph _ ?s0)) _) = _ =>
      apply (graph_transpose_sorted s0 o)
  end.
  - eapply (reach_Build 2 ["C"; "A"; "B"] (abc (T:=unit)));
      [unfold abc; do 3 apply reach_Provide; apply reach_New|].
    vm_compute; reflexivity.
  - split_and!; (apply keys_of_dom; [apply NoDup_abc|vm_compute; reflexivity]).
Defined.

(** The scenario of the specification, before its build and after it. *)
Lemma Compact_Extract_preconditions_witness :
  let names := ["A"; "B"; "C"] in
  (Compact names (abc (T:=unit)) = Panicked compact_panic abc ∧
   Extract names (abc (T:=unit)) = Panicked extract_panic abc) ∧
  ∃ s1,
    Build 2 names (abc (T:=unit)) = Done None s1 ∧
    ∃ s2,
      Compact names s1 = Done tt s2 ∧
      all_nil (Dependencies (GetDependencyGraph (Orders names names names) s2)) ∧
      all_nil (Dependents (GetDependencyGraph (Orders names names names) s2)).
Proof.
  intros names. split.
  - apply (proj1 (Compact_Extract_preconditions (T:=unit))).
    unfold abc. do 3 apply bb_Provide. apply bb_New.
  - exists_final.
    match goal with
    | |- _ = Done None ?s1 ∧ _ =>
        split; [vm_compute; reflexivity|]; exists_final;
        match goal with
        | |- _ = Done tt ?s2 ∧ _ =>
            split; [vm_compute; reflexivity|];
            apply (proj2 (Compact_Extract_preconditions (T:=unit))
                     2 names abc s1 names s2 (Orders names names names))
        end
    end.
    + vm_compute; reflexivity.
    + intros name. rewrite <-elem_of_dom.
      match goal with
      | |- _ ∈ dom ?m → _ =>
          replace (dom m) with (list_to_set (C:=gset string) names)
            by (vm_compute; reflexivity)
      end.
      by rewrite elem_of_list_to_set.
    + vm_compute; reflexivity.
Defined.

(** The cycle of A and B, found from A. *)
Lemma reported_cycle_shape_witness :
  detectCircularDependency ab_cycle 3 ["A"; "B"] = Some (true, ["A"; "B"; "A"]) ∧
  2 ≤ length ["A"; "B"; "A"] ∧
  ∃ node, head ["A"; "B"; "A"] = Some node ∧ last ["A"; "B"; "A"] = Some node.
Proof.
  split; [vm_compute; reflexivity|].
  destruct (reported_cycle_shape ab_cycle 3 ["A"; "B"] ["A"; "B"; "A"]) as (_ & ? & ? & _);
    [|vm_compute; reflexivity|done].
  intros n. rewrite <-elem_of_dom.
  replace (dom ab_cycle) with (list_to_set (C:=gset string) ["A"; "B"])
    by (vm_compute; reflexivity).
  by rewrite elem_of_list_to_set.
Defined.
